(** * HLSPonyfill: track-list synchronisation and attachment lifecycle

    A shallow embedding of [src/src/HLSPonyfill.ts].  The class couples one
    [HTMLVideoElement] with one hls.js engine instance and keeps the
    element's audio / video track lists and text tracks in step with the
    engine.

    Conventions of the embedding:
    - JS objects that are compared by identity (tracks, track lists, bound
      listener functions, the video element) carry a natural number as their
      identity; track lists live in a heap ([gmap]) because the element and
      the ponyfill hold references to the same list object;
    - the engine ([Hls]) is opaque: the record holds the properties the
      ponyfill reads, and every property write or method call on it is
      appended to a command log;
    - a method that can throw returns the state it reached together with
      an [Outcome], since side effects made before a [throw] persist;
    - each handler is one state transformer; the event dispatch of the
      browser and of the engine is outside the embedding, and so is what
      the engine itself does to the element it is attached to. *)

From Stdlib Require Import ZArith Ascii String.
From stdpp Require Import base option list gmap strings.

(** ** JavaScript helpers *)

Module JS.

(** [arr[i]] for a numeric index: [undefined] outside the array. *)
Definition index {A} (arr : list A) (i : Z) : option A :=
  if (i <? 0)%Z then None else arr !! Z.to_nat i.

Fixpoint findIndex_from {A} (p : A → bool) (arr : list A) (k : Z) : Z :=
  match arr with
  | [] => (-1)%Z
  | x :: rest => if p x then k else findIndex_from p rest (k + 1)%Z
  end.

(** [arr.findIndex(p)]: the first index satisfying [p], or [-1]. *)
Definition findIndex {A} (p : A → bool) (arr : list A) : Z :=
  findIndex_from p arr 0%Z.

Fixpoint forEach_from {A St} (f : St → A → nat → St) (arr : list A) (idx : nat) (s : St) : St :=
  match arr with
  | [] => s
  | x :: rest => forEach_from f rest (S idx) (f s x idx)
  end.

(** [arr.forEach((x, idx) => ...)], threading the state the callback mutates. *)
Definition forEach {A St} (f : St → A → nat → St) (arr : list A) (s : St) : St :=
  forEach_from f arr 0 s.

(** [k] is the first index of [arr] whose element satisfies [P]. *)
Definition first_index_of {A} (P : A → Prop) (arr : list A) (k : nat) : Prop :=
  (∃ x, arr !! k = Some x ∧ P x) ∧ ∀ j y, j < k → arr !! j = Some y → ¬ P y.

(** Truthiness of a string: only the empty string is falsy. *)
Definition truthy_str (s : string) : bool :=
  match s with
  | EmptyString => false
  | String _ _ => true
  end.

(** Truthiness of a [string | undefined] value. *)
Definition truthy (s : option string) : bool :=
  match s with
  | Some s => truthy_str s
  | None => false
  end.

Definition lower_ascii (c : ascii) : ascii :=
  let n := nat_of_ascii c in
  if (65 <=? n)%nat && (n <=? 90)%nat then ascii_of_nat (n + 32) else c.

(** [s.toLowerCase()] on the ASCII range. *)
Fixpoint toLowerCase (s : string) : string :=
  match s with
  | EmptyString => EmptyString
  | String c rest => String (lower_ascii c) (toLowerCase rest)
  end.

(** A [Set] iterates in insertion order; [add] of a member is a no-op. *)
Definition set_add (x : nat) (s : list nat) : list nat :=
  if decide (x ∈ s) then s else s ++ [x].

(** [target.addEventListener(type, fn)]: the same callback is registered
    at most once. *)
Definition addEventListener (fn : nat) (ls : list nat) : list nat :=
  if decide (fn ∈ ls) then ls else ls ++ [fn].

Definition removeEventListener (fn : nat) (ls : list nat) : list nat :=
  filter (λ g, g ≠ fn) ls.

End JS.

(** ** The engine (hls.js), as far as the ponyfill reads it *)

Record Level := {
  lv_name : option string;
  lv_LANGUAGE : option string;       (* attrs.LANGUAGE *)
  lv_width : Z;
  lv_height : Z;
  lv_bitrate : Z;
  lv_url : list string }.

Record MediaPlaylist := {
  mp_type : string;
  mp_name : string;
  mp_lang : option string;
  mp_url : string }.

Inductive HlsEvent :=
| MANIFEST_LOADED | LEVEL_SWITCHED | AUDIO_TRACK_SWITCHED
| SUBTITLE_TRACK_SWITCH | NON_NATIVE_TEXT_TRACKS_FOUND | CUES_PARSED
| MEDIA_DETACHING.

(** Property writes and method calls the ponyfill issues on the engine. *)
Inductive HlsCommand :=
| SetCurrentLevel (i : Z)
| SetAudioTrack (i : Z)
| SetSubtitleTrack (i : Z)
| On (e : HlsEvent)
| LoadSource (src : string)
| AttachMedia (elem : nat)
| DetachMedia
| Destroy.

Record Hls := {
  levels : list Level;
  currentLevel : Z;
  audioTracks : list MediaPlaylist;
  audioTrack : Z;
  subtitleTracks : list MediaPlaylist;
  subtitleTrack : Z;
  media : option nat;
  commands : list HlsCommand }.

Definition hls_command (c : HlsCommand) (h : Hls) : Hls :=
  {| levels := levels h; currentLevel := currentLevel h;
     audioTracks := audioTracks h; audioTrack := audioTrack h;
     subtitleTracks := subtitleTracks h; subtitleTrack := subtitleTrack h;
     media := media h; commands := commands h ++ [c] |}.

Definition hls_set_media (m : option nat) (h : Hls) : Hls :=
  {| levels := levels h; currentLevel := currentLevel h;
     audioTracks := audioTracks h; audioTrack := audioTrack h;
     subtitleTracks := subtitleTracks h; subtitleTrack := subtitleTrack h;
     media := m; commands := commands h |}.

(** [new HlsCtor({ liveDurationInfinity: true, renderTextTracksNatively: false })]:
    no manifest yet, nothing attached. *)
Definition hls_new : Hls :=
  {| levels := []; currentLevel := (-1)%Z;
     audioTracks := []; audioTrack := (-1)%Z;
     subtitleTracks := []; subtitleTrack := (-1)%Z;
     media := None; commands := [] |}.

(** [url: [id]]: the identifier of a level is the first of its URLs. *)
Definition level_id (lv : Level) : option string := head (lv_url lv).

(** ** The media-track-list package

    Modelled from the spec: [VideoTrack], [AudioTrack] and their list
    classes belong to the [media-track-list] dependency, whose code is not
    among the sources.  The specification describes a container as an
    ordered, mutable collection with add, remove and lookup by identifier
    and a change notification, with at most one selected entry per video
    list and zero or more enabled entries per audio list.  Accordingly, as
    in the track model of the HTML Standard: [addTrack] appends,
    [removeTrack] removes the given object, [getTrackById] returns the
    first entry with the identifier, selecting a video track unselects the
    other entries of its list, and audio tracks are enabled independently
    of one another. *)

Record VideoTrack := {
  vt_oid : nat;                       (* object identity *)
  vt_id : option string;
  vt_language : option string;
  vt_label : option string;
  vt_width : Z;
  vt_height : Z;
  vt_bitrate : Z;
  vt_selected : bool }.

Record AudioTrack := {
  at_oid : nat;                       (* object identity *)
  at_id : string;
  at_language : option string;
  at_label : string;
  at_enabled : bool }.

Record TrackList (T : Type) := {
  tl_tracks : list T;
  tl_change : list nat }.             (* 'change' listeners *)
Arguments tl_tracks {T} _.
Arguments tl_change {T} _.

Definition tl_new {T} : TrackList T := {| tl_tracks := []; tl_change := [] |}.

Definition tl_map_tracks {T} (f : list T → list T) (l : TrackList T) : TrackList T :=
  {| tl_tracks := f (tl_tracks l); tl_change := tl_change l |}.

Definition tl_map_change {T} (f : list nat → list nat) (l : TrackList T) : TrackList T :=
  {| tl_tracks := tl_tracks l; tl_change := f (tl_change l) |}.

Definition addTrack {T} (t : T) : TrackList T → TrackList T :=
  tl_map_tracks (λ ts, ts ++ [t]).

(** [list.removeTrack(track)]: by object identity. *)
Definition removeTrack {T} (oid_of : T → nat) (o : nat) : TrackList T → TrackList T :=
  tl_map_tracks (filter (λ t, oid_of t ≠ o)).

Definition vt_set_selected (b : bool) (t : VideoTrack) : VideoTrack :=
  {| vt_oid := vt_oid t; vt_id := vt_id t; vt_language := vt_language t;
     vt_label := vt_label t; vt_width := vt_width t; vt_height := vt_height t;
     vt_bitrate := vt_bitrate t; vt_selected := b |}.

Definition at_set_enabled (b : bool) (t : AudioTrack) : AudioTrack :=
  {| at_oid := at_oid t; at_id := at_id t; at_language := at_language t;
     at_label := at_label t; at_enabled := b |}.

(** [list.getTrackById(id)]. *)
Definition getVideoTrackById (id : option string) (l : TrackList VideoTrack)
  : option VideoTrack :=
  snd <$> list_find (λ t, vt_id t = id) (tl_tracks l).

Definition getAudioTrackById (id : string) (l : TrackList AudioTrack)
  : option AudioTrack :=
  snd <$> list_find (λ t, at_id t = id) (tl_tracks l).

(** [track.selected = true] on the entry with identity [o]: it becomes the
    only selected entry of its list. *)
Definition select_video (o : nat) : TrackList VideoTrack → TrackList VideoTrack :=
  tl_map_tracks (fmap (λ t, vt_set_selected (bool_decide (vt_oid t = o)) t)).

(** [track.enabled = true] on the entry with identity [o]; the other
    entries keep their flag. *)
Definition enable_audio (o : nat) : TrackList AudioTrack → TrackList AudioTrack :=
  tl_map_tracks (fmap (λ t, if decide (at_oid t = o) then at_set_enabled true t else t)).

(** The first selected / enabled entry, as the [for ... break] loops of the
    change handlers find it. *)
Definition first_selected (l : TrackList VideoTrack) : option VideoTrack :=
  snd <$> list_find (λ t, vt_selected t = true) (tl_tracks l).

Definition first_enabled (l : TrackList AudioTrack) : option AudioTrack :=
  snd <$> list_find (λ t, at_enabled t = true) (tl_tracks l).

(** ** The playback surface and the ponyfill instance *)

Inductive TextTrackMode := disabled | hidden | showing.

#[global] Instance TextTrackMode_eq_dec : EqDecision TextTrackMode.
Proof. solve_decision. Defined.

(** A value found in [video.videoTracks] / [video.audioTracks]: nothing, an
    instance of one of the two list classes (a heap location), or any other
    object, such as a native track list. *)
Inductive JsVal :=
| JUndefined
| JVideoTrackList (l : nat)
| JAudioTrackList (l : nat)
| JOther.

Inductive SeekableTimeRanges := SeekableTimeRanges_new.

Inductive Outcome (A : Type) : Type :=
| Return (a : A)
| Thrown (msg : string).
Arguments Return {A} a.
Arguments Thrown {A} msg.

Definition dquote : string := String (ascii_of_nat 34) EmptyString.

Definition no_ctor_message : string :=
  "HLSPonyfill: no Hls constructor found. Assign one via HLSPonyfill.Hls = require("
  +:+ dquote +:+ "hls.js" +:+ dquote +:+ ") (or import).".

Section Core.

(** Media times are IEEE doubles in the source.  The ponyfill only stores,
    compares and forwards them, so they are kept abstract. *)
Context {Num : Type} `{EqDecision Num}.

(** Helpers imported from sibling modules, [./clamp], [./isHlsSource] and
    [./getUrlProtocol], are parameters of the development. *)
Variable clamp : Num → Num → Num → Num.
Variable isHlsSource : string → bool.
Variable getUrlProtocol : string → string.

Record VTTCue := {
  startTime : Num;
  endTime : Num;
  text : string }.

#[global] Instance VTTCue_eq_dec : EqDecision VTTCue.
Proof using EqDecision0. solve_decision. Defined.

Record TextTrack := {
  tt_kind : string;
  tt_label : string;
  tt_language : string;
  tt_mode : TextTrackMode;
  tt_cues : list VTTCue;              (* in the order of the addCue calls *)
  tt_ponyfill : bool }.               (* its <track> element has data-hls-ponyfill *)

Record Video := {
  v_elem : nat;                       (* identity of the element *)
  v_src : option string;              (* the src attribute *)
  v_currentTime : Num;
  v_seekable : list (Num * Num);      (* seekable.start(i), seekable.end(i) *)
  v_textTracks : list TextTrack;
  v_textTracks_change : list nat;     (* 'change' listeners of video.textTracks *)
  v_videoTracks : JsVal;
  v_audioTracks : JsVal }.

(** The instance fields of [HLSPonyfill]. *)
Record Ponyfill := {
  hlsInstance : option Hls;
  hlsSrc : option string;
  seekableTimeRanges : option SeekableTimeRanges;
  videoTrackList : option nat;
  audioTrackList : option nat;
  createdVideoTracks : list nat;
  createdAudioTracks : list nat;
  onVideoTracksChangeBound : option nat;
  onAudioTracksChangeBound : option nat;
  (* the textTracks listener whose removal the session subscribed to
     MEDIA_DETACHING (a closure variable of initHls) *)
  onTextTracksChange : option nat }.

Record Heap := {
  vlists : gmap nat (TrackList VideoTrack);
  alists : gmap nat (TrackList AudioTrack);
  nextOid : nat;                      (* identity of the next track object *)
  nextFn : nat }.                     (* identity of the next function object *)

Record State := {
  this : Ponyfill;
  video : Video;
  heap : Heap;
  HlsConstructor : option nat;        (* private static HlsConstructor *)
  globalThis_Hls : option nat }.      (* globalThis.Hls *)

(** *** Field updates *)

Definition with_this (f : Ponyfill → Ponyfill) (st : State) : State :=
  {| this := f (this st); video := video st; heap := heap st;
     HlsConstructor := HlsConstructor st; globalThis_Hls := globalThis_Hls st |}.

Definition with_video (f : Video → Video) (st : State) : State :=
  {| this := this st; video := f (video st); heap := heap st;
     HlsConstructor := HlsConstructor st; globalThis_Hls := globalThis_Hls st |}.

Definition with_heap (f : Heap → Heap) (st : State) : State :=
  {| this := this st; video := video st; heap := f (heap st);
     HlsConstructor := HlsConstructor st; globalThis_Hls := globalThis_Hls st |}.

Definition set_HlsConstructor (c : option nat) (st : State) : State :=
  {| this := this st; video := video st; heap := heap st;
     HlsConstructor := c; globalThis_Hls := globalThis_Hls st |}.

Definition set_hlsInstance (h : option Hls) (p : Ponyfill) : Ponyfill :=
  {| hlsInstance := h; hlsSrc := hlsSrc p;
     seekableTimeRanges := seekableTimeRanges p;
     videoTrackList := videoTrackList p; audioTrackList := audioTrackList p;
     createdVideoTracks := createdVideoTracks p;
     createdAudioTracks := createdAudioTracks p;
     onVideoTracksChangeBound := onVideoTracksChangeBound p;
     onAudioTracksChangeBound := onAudioTracksChangeBound p;
     onTextTracksChange := onTextTracksChange p |}.

Definition set_hlsSrc (s : option string) (p : Ponyfill) : Ponyfill :=
  {| hlsInstance := hlsInstance p; hlsSrc := s;
     seekableTimeRanges := seekableTimeRanges p;
     videoTrackList := videoTrackList p; audioTrackList := audioTrackList p;
     createdVideoTracks := createdVideoTracks p;
     createdAudioTracks := createdAudioTracks p;
     onVideoTracksChangeBound := onVideoTracksChangeBound p;
     onAudioTracksChangeBound := onAudioTracksChangeBound p;
     onTextTracksChange := onTextTracksChange p |}.

Definition set_seekableTimeRanges (r : option SeekableTimeRanges) (p : Ponyfill) : Ponyfill :=
  {| hlsInstance := hlsInstance p; hlsSrc := hlsSrc p;
     seekableTimeRanges := r;
     videoTrackList := videoTrackList p; audioTrackList := audioTrackList p;
     createdVideoTracks := createdVideoTracks p;
     createdAudioTracks := createdAudioTracks p;
     onVideoTracksChangeBound := onVideoTracksChangeBound p;
     onAudioTracksChangeBound := onAudioTracksChangeBound p;
     onTextTracksChange := onTextTracksChange p |}.

Definition set_videoTrackList (l : option nat) (p : Ponyfill) : Ponyfill :=
  {| hlsInstance := hlsInstance p; hlsSrc := hlsSrc p;
     seekableTimeRanges := seekableTimeRanges p;
     videoTrackList := l; audioTrackList := audioTrackList p;
     createdVideoTracks := createdVideoTracks p;
     createdAudioTracks := createdAudioTracks p;
     onVideoTracksChangeBound := onVideoTracksChangeBound p;
     onAudioTracksChangeBound := onAudioTracksChangeBound p;
     onTextTracksChange := onTextTracksChange p |}.

Definition set_audioTrackList (l : option nat) (p : Ponyfill) : Ponyfill :=
  {| hlsInstance := hlsInstance p; hlsSrc := hlsSrc p;
     seekableTimeRanges := seekableTimeRanges p;
     videoTrackList := videoTrackList p; audioTrackList := l;
     createdVideoTracks := createdVideoTracks p;
     createdAudioTracks := createdAudioTracks p;
     onVideoTracksChangeBound := onVideoTracksChangeBound p;
     onAudioTracksChangeBound := onAudioTracksChangeBound p;
     onTextTracksChange := onTextTracksChange p |}.

Definition map_createdVideoTracks (f : list nat → list nat) (p : Ponyfill) : Ponyfill :=
  {| hlsInstance := hlsInstance p; hlsSrc := hlsSrc p;
     seekableTimeRanges := seekableTimeRanges p;
     videoTrackList := videoTrackList p; audioTrackList := audioTrackList p;
     createdVideoTracks := f (createdVideoTracks p);
     createdAudioTracks := createdAudioTracks p;
     onVideoTracksChangeBound := onVideoTracksChangeBound p;
     onAudioTracksChangeBound := onAudioTracksChangeBound p;
     onTextTracksChange := onTextTracksChange p |}.

Definition map_createdAudioTracks (f : list nat → list nat) (p : Ponyfill) : Ponyfill :=
  {| hlsInstance := hlsInstance p; hlsSrc := hlsSrc p;
     seekableTimeRanges := seekableTimeRanges p;
     videoTrackList := videoTrackList p; audioTrackList := audioTrackList p;
     createdVideoTracks := createdVideoTracks p;
     createdAudioTracks := f (createdAudioTracks p);
     onVideoTracksChangeBound := onVideoTracksChangeBound p;
     onAudioTracksChangeBound := onAudioTracksChangeBound p;
     onTextTracksChange := onTextTracksChange p |}.

Definition set_onVideoTracksChangeBound (fn : option nat) (p : Ponyfill) : Ponyfill :=
  {| hlsInstance := hlsInstance p; hlsSrc := hlsSrc p;
     seekableTimeRanges := seekableTimeRanges p;
     videoTrackList := videoTrackList p; audioTrackList := audioTrackList p;
     createdVideoTracks := createdVideoTracks p;
     createdAudioTracks := createdAudioTracks p;
     onVideoTracksChangeBound := fn;
     onAudioTracksChangeBound := onAudioTracksChangeBound p;
     onTextTracksChange := onTextTracksChange p |}.

Definition set_onAudioTracksChangeBound (fn : option nat) (p : Ponyfill) : Ponyfill :=
  {| hlsInstance := hlsInstance p; hlsSrc := hlsSrc p;
     seekableTimeRanges := seekableTimeRanges p;
     videoTrackList := videoTrackList p; audioTrackList := audioTrackList p;
     createdVideoTracks := createdVideoTracks p;
     createdAudioTracks := createdAudioTracks p;
     onVideoTracksChangeBound := onVideoTracksChangeBound p;
     onAudioTracksChangeBound := fn;
     onTextTracksChange := onTextTracksChange p |}.

Definition set_onTextTracksChange (fn : option nat) (p : Ponyfill) : Ponyfill :=
  {| hlsInstance := hlsInstance p; hlsSrc := hlsSrc p;
     seekableTimeRanges := seekableTimeRanges p;
     videoTrackList := videoTrackList p; audioTrackList := audioTrackList p;
     createdVideoTracks := createdVideoTracks p;
     createdAudioTracks := createdAudioTracks p;
     onVideoTracksChangeBound := onVideoTracksChangeBound p;
     onAudioTracksChangeBound := onAudioTracksChangeBound p;
     onTextTracksChange := fn |}.

Definition set_v_src (s : option string) (v : Video) : Video :=
  {| v_elem := v_elem v; v_src := s; v_currentTime := v_currentTime v;
     v_seekable := v_seekable v; v_textTracks := v_textTracks v;
     v_textTracks_change := v_textTracks_change v;
     v_videoTracks := v_videoTracks v; v_audioTracks := v_audioTracks v |}.

Definition set_v_currentTime (x : Num) (v : Video) : Video :=
  {| v_elem := v_elem v; v_src := v_src v; v_currentTime := x;
     v_seekable := v_seekable v; v_textTracks := v_textTracks v;
     v_textTracks_change := v_textTracks_change v;
     v_videoTracks := v_videoTracks v; v_audioTracks := v_audioTracks v |}.

Definition map_v_textTracks (f : list TextTrack → list TextTrack) (v : Video) : Video :=
  {| v_elem := v_elem v; v_src := v_src v; v_currentTime := v_currentTime v;
     v_seekable := v_seekable v; v_textTracks := f (v_textTracks v);
     v_textTracks_change := v_textTracks_change v;
     v_videoTracks := v_videoTracks v; v_audioTracks := v_audioTracks v |}.

Definition map_v_textTracks_change (f : list nat → list nat) (v : Video) : Video :=
  {| v_elem := v_elem v; v_src := v_src v; v_currentTime := v_currentTime v;
     v_seekable := v_seekable v; v_textTracks := v_textTracks v;
     v_textTracks_change := f (v_textTracks_change v);
     v_videoTracks := v_videoTracks v; v_audioTracks := v_audioTracks v |}.

Definition set_v_videoTracks (x : JsVal) (v : Video) : Video :=
  {| v_elem := v_elem v; v_src := v_src v; v_currentTime := v_currentTime v;
     v_seekable := v_seekable v; v_textTracks := v_textTracks v;
     v_textTracks_change := v_textTracks_change v;
     v_videoTracks := x; v_audioTracks := v_audioTracks v |}.

Definition set_v_audioTracks (x : JsVal) (v : Video) : Video :=
  {| v_elem := v_elem v; v_src := v_src v; v_currentTime := v_currentTime v;
     v_seekable := v_seekable v; v_textTracks := v_textTracks v;
     v_textTracks_change := v_textTracks_change v;
     v_videoTracks := v_videoTracks v; v_audioTracks := x |}.

Definition map_vlists
  (f : gmap nat (TrackList VideoTrack) → gmap nat (TrackList VideoTrack)) (h : Heap) : Heap :=
  {| vlists := f (vlists h); alists := alists h; nextOid := nextOid h; nextFn := nextFn h |}.

Definition map_alists
  (f : gmap nat (TrackList AudioTrack) → gmap nat (TrackList AudioTrack)) (h : Heap) : Heap :=
  {| vlists := vlists h; alists := f (alists h); nextOid := nextOid h; nextFn := nextFn h |}.

Definition bump_nextOid (h : Heap) : Heap :=
  {| vlists := vlists h; alists := alists h; nextOid := S (nextOid h); nextFn := nextFn h |}.

Definition bump_nextFn (h : Heap) : Heap :=
  {| vlists := vlists h; alists := alists h; nextOid := nextOid h; nextFn := S (nextFn h) |}.

(** ** The methods of [HLSPonyfill] *)

Definition on_vlist (l : nat) (f : TrackList VideoTrack → TrackList VideoTrack)
  : State → State :=
  with_heap (map_vlists (alter f l)).

Definition on_alist (l : nat) (f : TrackList AudioTrack → TrackList AudioTrack)
  : State → State :=
  with_heap (map_alists (alter f l)).

(** [static get Hls()] *)
Definition Hls_getter (st : State) : Outcome nat :=
  match HlsConstructor st with
  | Some HlsCtor => Return HlsCtor
  | None =>
      match globalThis_Hls st with
      | Some HlsCtor => Return HlsCtor
      | None => Thrown no_ctor_message
      end
  end.

(** [static set Hls(HlsConstructor)] *)
Definition Hls_setter (HlsCtor : nat) : State → State :=
  set_HlsConstructor (Some HlsCtor).

(** [get hls()]: the instance, when it is attached to this element. *)
Definition hls (st : State) : option Hls :=
  match hlsInstance (this st) with
  | Some h => if decide (media h = Some (v_elem (video st))) then Some h else None
  | None => None
  end.

(** [this.videoTrackList?.removeTrack(track)] *)
Definition remove_video_track (st : State) (o : nat) : State :=
  match videoTrackList (this st) with
  | Some vl => on_vlist vl (removeTrack vt_oid o) st
  | None => st
  end.

Definition remove_audio_track (st : State) (o : nat) : State :=
  match audioTrackList (this st) with
  | Some al => on_alist al (removeTrack at_oid o) st
  | None => st
  end.

(** [hlsInstance.detachMedia(); hlsInstance.destroy()].  The engine emits
    MEDIA_DETACHING, on which the session's own callback takes its listener
    off [video.textTracks]; the engine object is dropped afterwards. *)
Definition engine_teardown (st : State) : State :=
  match onTextTracksChange (this st) with
  | Some fn =>
      with_this (set_onTextTracksChange None)
        (with_video (map_v_textTracks_change (JS.removeEventListener fn)) st)
  | None => st
  end.

(** The blocks of [detachHls], in source order. *)

(** [querySelectorAll('track[data-hls-ponyfill]').forEach(remove)] *)
Definition remove_placeholders (st : State) : State :=
  with_video (map_v_textTracks (filter (λ t, tt_ponyfill t = false))) st.

Definition clear_video_tracks (st : State) : State :=
  match videoTrackList (this st) with
  | Some vl =>
      let st :=
        match onVideoTracksChangeBound (this st) with
        | Some fn => on_vlist vl (tl_map_change (JS.removeEventListener fn)) st
        | None => st
        end in
      (* remove only those tracks we created *)
      let st := foldl remove_video_track st (createdVideoTracks (this st)) in
      with_this (map_createdVideoTracks (λ _, [])) st
  | None => st
  end.

Definition clear_audio_tracks (st : State) : State :=
  match audioTrackList (this st) with
  | Some al =>
      let st :=
        match onAudioTracksChangeBound (this st) with
        | Some fn => on_alist al (tl_map_change (JS.removeEventListener fn)) st
        | None => st
        end in
      let st := foldl remove_audio_track st (createdAudioTracks (this st)) in
      with_this (map_createdAudioTracks (λ _, [])) st
  | None => st
  end.

Definition destroy_instance (st : State) : State :=
  match hlsInstance (this st) with
  | Some _ => with_this (set_hlsInstance None) (engine_teardown st)
  | None => st
  end.

Definition detachHls (st : State) : State :=
  let st := remove_placeholders st in
  let st := clear_video_tracks st in
  let st := clear_audio_tracks st in
  let st := destroy_instance st in
  let st := with_this (set_hlsSrc None) st in
  with_this (set_seekableTimeRanges None) st.

Definition detach : State → State := detachHls.

Definition initVideoTrackList (st : State) : State :=
  let st :=
    match v_videoTracks (video st) with
    | JVideoTrackList l =>
        (* reuse an existing list *)
        with_this (set_videoTrackList (Some l)) st
    | _ =>
        let l := fresh (dom (vlists (heap st))) in
        let st := with_heap (map_vlists (insert l tl_new)) st in
        let st := with_this (set_videoTrackList (Some l)) st in
        with_video (set_v_videoTracks (JVideoTrackList l)) st
    end in
  let fn := nextFn (heap st) in
  let st := with_heap bump_nextFn st in
  let st := with_this (set_onVideoTracksChangeBound (Some fn)) st in
  match videoTrackList (this st) with
  | Some vl => on_vlist vl (tl_map_change (JS.addEventListener fn)) st
  | None => st
  end.

Definition initAudioTrackList (st : State) : State :=
  let st :=
    match v_audioTracks (video st) with
    | JAudioTrackList l =>
        with_this (set_audioTrackList (Some l)) st
    | _ =>
        let l := fresh (dom (alists (heap st))) in
        let st := with_heap (map_alists (insert l tl_new)) st in
        let st := with_this (set_audioTrackList (Some l)) st in
        with_video (set_v_audioTracks (JAudioTrackList l)) st
    end in
  let fn := nextFn (heap st) in
  let st := with_heap bump_nextFn st in
  let st := with_this (set_onAudioTracksChangeBound (Some fn)) st in
  match audioTrackList (this st) with
  | Some al => on_alist al (tl_map_change (JS.addEventListener fn)) st
  | None => st
  end.

(** The [on] helper of [initHls]: subscribe, and subscribe the matching
    [off] to MEDIA_DETACHING. *)
Definition on_event (e : HlsEvent) (h : Hls) : Hls :=
  hls_command (On MEDIA_DETACHING) (hls_command (On e) h).

Definition initHls (src : string) (st : State) : State * Outcome unit :=
  let st := detachHls st in
  let st := initVideoTrackList st in
  let st := initAudioTrackList st in
  match Hls_getter st with
  | Thrown msg => (st, Thrown msg)
  | Return _ =>
      let h := hls_new in
      let st := with_this (set_seekableTimeRanges (Some SeekableTimeRanges_new)) st in
      let h := on_event MANIFEST_LOADED h in
      let h := on_event LEVEL_SWITCHED h in
      let h := on_event AUDIO_TRACK_SWITCHED h in
      let h := on_event SUBTITLE_TRACK_SWITCH h in
      let h := on_event NON_NATIVE_TEXT_TRACKS_FOUND h in
      let h := on_event CUES_PARSED h in
      let fn := nextFn (heap st) in
      let st := with_heap bump_nextFn st in
      let st := with_video (map_v_textTracks_change (JS.addEventListener fn)) st in
      let st := with_this (set_onTextTracksChange (Some fn)) st in
      let h := hls_command (On MEDIA_DETACHING) h in
      let h := hls_command (LoadSource src) h in
      let h := hls_set_media (Some (v_elem (video st))) (hls_command (AttachMedia (v_elem (video st))) h) in
      let st := with_this (set_hlsInstance (Some h)) st in
      let st := with_this (set_hlsSrc (Some src)) st in
      (st, Return ())
  end.

Definition setSrc (src : string) (st : State) : State * Outcome unit :=
  if negb (JS.truthy_str src) then
    let st := detachHls st in
    (with_video (set_v_src None) st, Return ())
  else if isHlsSource src then initHls src st
  else
    let isBlobUrl := bool_decide (getUrlProtocol src = "blob:") in
    let isAttached :=
      match hlsInstance (this st) with
      | Some h => bool_decide (is_Some (media h))
      | None => false
      end in
    let st := if isAttached && negb isBlobUrl then detachHls st else st in
    let st := with_this (set_hlsSrc None) st in
    (with_video (set_v_src (Some src)) st, Return ()).

(** [set currentTime(value)] *)
Definition set_currentTime (value : Num) (st : State) : State :=
  let value :=
    match hlsSrc (this st), v_seekable (video st) with
    | Some _, (seekable_start, seekable_end) :: _ =>
        clamp value seekable_start seekable_end
    | _, _ => value
    end in
  with_video (set_v_currentTime value) st.

(** *** User-driven changes of the track lists *)

Definition onVideoTracksChange (st : State) : State :=
  match hls st with
  | None => st
  | Some h =>
      match videoTrackList (this st) with
      | None => st
      | Some vl =>
          match vlists (heap st) !! vl ≫= first_selected with
          | None => st
          | Some selectedTrack =>
              let currentHlsLevel := JS.index (levels h) (currentLevel h) in
              let already :=
                match currentHlsLevel with
                | Some lv => bool_decide (vt_id selectedTrack = level_id lv)
                | None => false
                end in
              if already then st
              else
                let newLevelIndex :=
                  JS.findIndex
                    (λ lv, bool_decide (level_id lv = vt_id selectedTrack))
                    (levels h) in
                if (0 <=? newLevelIndex)%Z then
                  with_this
                    (set_hlsInstance (Some (hls_command (SetCurrentLevel newLevelIndex) h)))
                    st
                else st
          end
      end
  end.

Definition onAudioTracksChange (st : State) : State :=
  match hls st with
  | None => st
  | Some h =>
      match audioTrackList (this st) with
      | None => st
      | Some al =>
          match alists (heap st) !! al ≫= first_enabled with
          | None => st
          | Some enabledTrack =>
              let currentHlsAudio := JS.index (audioTracks h) (audioTrack h) in
              let already :=
                match currentHlsAudio with
                | Some t => bool_decide (mp_url t = at_id enabledTrack)
                | None => false
                end in
              if already then st
              else
                let idx :=
                  JS.findIndex
                    (λ t, bool_decide (mp_url t = at_id enabledTrack))
                    (audioTracks h) in
                if (0 <=? idx)%Z then
                  with_this
                    (set_hlsInstance (Some (hls_command (SetAudioTrack idx) h)))
                    st
                else st
          end
      end
  end.

(** *** Populating the track lists from the engine *)

Definition new_VideoTrack (o : nat) (h : Hls) (lv : Level) (idx : nat) : VideoTrack :=
  {| vt_oid := o;
     vt_id := level_id lv;
     vt_language := lv_LANGUAGE lv;
     vt_label := lv_name lv;
     vt_width := lv_width lv;
     vt_height := lv_height lv;
     vt_bitrate := lv_bitrate lv;
     vt_selected := bool_decide (currentLevel h = Z.of_nat idx) |}.

Definition new_AudioTrack (o : nat) (h : Hls) (t : MediaPlaylist) (idx : nat) : AudioTrack :=
  {| at_oid := o;
     at_id := mp_url t;
     at_language := mp_lang t;
     at_label := mp_name t;
     at_enabled := bool_decide (audioTrack h = Z.of_nat idx) |}.

(** Body of [hls.levels.forEach(...)]. *)
Definition add_level (h : Hls) (st : State) (lv : Level) (idx : nat) : State :=
  let o := nextOid (heap st) in
  let track := new_VideoTrack o h lv idx in
  let st := with_heap bump_nextOid st in
  let st :=
    match videoTrackList (this st) with
    | Some vl => on_vlist vl (addTrack track) st
    | None => st                      (* excluded by the guard of the caller *)
    end in
  with_this (map_createdVideoTracks (JS.set_add o)) st.

(** Body of [hls.audioTracks.forEach(...)]. *)
Definition add_audio (h : Hls) (st : State) (t : MediaPlaylist) (idx : nat) : State :=
  let o := nextOid (heap st) in
  let track := new_AudioTrack o h t idx in
  let st := with_heap bump_nextOid st in
  let st :=
    match audioTrackList (this st) with
    | Some al => on_alist al (addTrack track) st
    | None => st                      (* excluded by the guard of the caller *)
    end in
  with_this (map_createdAudioTracks (JS.set_add o)) st.

Definition updateTrackLists (h : Hls) (st : State) : State :=
  if negb (JS.truthy (hlsSrc (this st))) then st
  else
    match videoTrackList (this st), audioTrackList (this st) with
    | Some _, Some _ =>
        let st := foldl remove_video_track st (createdVideoTracks (this st)) in
        let st := with_this (map_createdVideoTracks (λ _, [])) st in
        let st := foldl remove_audio_track st (createdAudioTracks (this st)) in
        let st := with_this (map_createdAudioTracks (λ _, [])) st in
        let st := JS.forEach (add_level h) (levels h) st in
        JS.forEach (add_audio h) (audioTracks h) st
    | _, _ => st
    end.

(** The entries of a list that the provenance set of the state records:
    the ones this instance inserted. *)
Definition own_video_tracks (st : State) (L : TrackList VideoTrack) : list VideoTrack :=
  filter (λ t, vt_oid t ∈ createdVideoTracks (this st)) (tl_tracks L).

Definition own_audio_tracks (st : State) (L : TrackList AudioTrack) : list AudioTrack :=
  filter (λ t, at_oid t ∈ createdAudioTracks (this st)) (tl_tracks L).

(** *** Engine rendition switches *)

Definition updateVideoTrack (h : Hls) (st : State) : State :=
  if negb (JS.truthy (hlsSrc (this st))) then st
  else
    match videoTrackList (this st) with
    | None => st
    | Some vl =>
        match JS.index (levels h) (currentLevel h) with
        | None => st
        | Some level =>
            match vlists (heap st) !! vl ≫= getVideoTrackById (level_id level) with
            | Some videoTrack =>
                if vt_selected videoTrack then st
                else on_vlist vl (select_video (vt_oid videoTrack)) st
            | None => st
            end
        end
    end.

Definition updateAudioTrack (h : Hls) (st : State) : State :=
  if negb (JS.truthy (hlsSrc (this st))) then st
  else
    match audioTrackList (this st) with
    | None => st
    | Some al =>
        match JS.index (audioTracks h) (audioTrack h) with
        | None => st
        | Some current =>
            match alists (heap st) !! al ≫= getAudioTrackById (mp_url current) with
            | Some audioTrack =>
                if at_enabled audioTrack then st
                else on_alist al (enable_audio (at_oid audioTrack)) st
            | None => st
            end
        end
    end.

(** *** Subtitles *)

Definition isCorrespondingTrack (textTrack : TextTrack) (hlsTrack : MediaPlaylist) : bool :=
  bool_decide (JS.toLowerCase (mp_type hlsTrack) = tt_kind textTrack)
  && bool_decide (mp_name hlsTrack = tt_label textTrack)
  && (negb (JS.truthy_str (tt_language textTrack))
      || bool_decide (Some (tt_language textTrack) = mp_lang hlsTrack)).

Definition tt_set_mode (m : TextTrackMode) (t : TextTrack) : TextTrack :=
  {| tt_kind := tt_kind t; tt_label := tt_label t; tt_language := tt_language t;
     tt_mode := m; tt_cues := tt_cues t; tt_ponyfill := tt_ponyfill t |}.

Definition tt_set_cues (cs : list VTTCue) (t : TextTrack) : TextTrack :=
  {| tt_kind := tt_kind t; tt_label := tt_label t; tt_language := tt_language t;
     tt_mode := tt_mode t; tt_cues := cs; tt_ponyfill := tt_ponyfill t |}.

(** Body of the loop of [updateTextTrack]. *)
Definition switch_mode (track : MediaPlaylist) (t : TextTrack) : TextTrack :=
  let shouldEnable := isCorrespondingTrack t track in
  if shouldEnable && bool_decide (tt_mode t = disabled) then tt_set_mode showing t
  else if negb shouldEnable && bool_decide (tt_mode t ≠ disabled) then tt_set_mode disabled t
  else t.

Definition updateTextTrack (h : Hls) (st : State) : State :=
  match JS.index (subtitleTracks h) (subtitleTrack h) with
  | None => st
  | Some track => with_video (map_v_textTracks (fmap (switch_mode track))) st
  end.

(** Duplicate test on cues: same start time, end time and payload. *)
Definition same_cue (a b : VTTCue) : Prop :=
  startTime a = startTime b ∧ endTime a = endTime b ∧ text a = text b.

#[global] Instance same_cue_dec a b : Decision (same_cue a b).
Proof using EqDecision0. unfold same_cue. apply _. Defined.

(** Modelled from the spec: [./addCueToTrack] is not among the sources.  The
    specification has it append the cue to the track, skipping without an
    error a cue that duplicates one already present, where duplicate means
    identical start time, end time and payload. *)
Definition addCueToTrack (track : TextTrack) (cue : VTTCue) : TextTrack :=
  if decide (Exists (same_cue cue) (tt_cues track)) then track
  else tt_set_cues (tt_cues track ++ [cue]) track.

Definition addCues (cues : list VTTCue) (h : Hls) (st : State) : State :=
  if bool_decide (subtitleTrack h = (-1)%Z) then st
  else
    match JS.index (subtitleTracks h) (subtitleTrack h) with
    | None => st
    | Some currentTrack =>
        match list_find (λ t, isCorrespondingTrack t currentTrack = true)
                (v_textTracks (video st)) with
        | Some (i, nativeTrack) =>
            with_video
              (map_v_textTracks (λ ts, <[i := foldl addCueToTrack nativeTrack cues]> ts))
              st
        | None => st
        end
    end.


(** ** The rest of the class *)

(** [video.src] reads the [src] attribute as a URL resolved against the
    document, and the empty string when the attribute is absent; the
    resolution is the browser's. *)
Variable resolveURL : string → string.

Definition video_src (v : Video) : string :=
  match v_src v with
  | Some s => resolveURL s
  | None => EmptyString
  end.

Definition getSrc (st : State) : string :=
  match hlsSrc (this st) with
  | None => video_src (video st)
  | Some src => src
  end.

(** [get currentTime()] *)
Definition get_currentTime (st : State) : Num := v_currentTime (video st).

(** [new HLSPonyfill(video)], on an element and a heap that exist, with the
    static slots as they are. *)
Definition HLSPonyfill_new (v : Video) (hp : Heap) (ctor global : option nat) : State :=
  {| this := {| hlsInstance := None; hlsSrc := None; seekableTimeRanges := None;
                videoTrackList := None; audioTrackList := None;
                createdVideoTracks := []; createdAudioTracks := [];
                onVideoTracksChangeBound := None; onAudioTracksChangeBound := None;
                onTextTracksChange := None |};
     video := v; heap := hp; HlsConstructor := ctor; globalThis_Hls := global |}.

(** *** Placeholder tracks for the engine's subtitle renditions *)

(** The fields of hls.js' [NonNativeTextTrack] that the ponyfill reads. *)
Record NonNativeTextTrack := {
  nn_kind : string;
  nn_label : string;
  nn_default : bool;
  nn_subtitleTrack : option MediaPlaylist }.

(** [track.kind] of a [<track>] element whose [kind] attribute is set: the
    attribute is enumerated, matched without regard to ASCII case, and an
    unknown value reads as ["metadata"]. *)
Definition track_kind (attr : string) : string :=
  let k := JS.toLowerCase attr in
  if bool_decide (k ∈ ["subtitles"; "captions"; "descriptions"; "chapters"; "metadata"])
  then k else "metadata".

(** The text track of the element that the body of the [forEach] of
    [initNativeTextTrack] builds. *)
Definition placeholder_of (t : NonNativeTextTrack) : TextTrack :=
  {| tt_kind := track_kind (nn_kind t);
     tt_label := nn_label t;
     tt_language :=
       match nn_subtitleTrack t ≫= mp_lang with
       | Some lang => lang              (* srclang is set when lang is truthy *)
       | None => EmptyString
       end;
     tt_mode := if nn_default t then showing else hidden;
     tt_cues := [];
     tt_ponyfill := true |}.

(** [video.appendChild(trackEl)]: the tracks of [<track>] children come
    first in [video.textTracks], in tree order, so the new track goes
    after the [elems] tracks that come from children already. *)
Definition appendChild_track (elems : nat) (t : TextTrack) (ts : list TextTrack)
  : list TextTrack :=
  take elems ts ++ t :: drop elems ts.

(** [elems] is the number of text tracks that come from [<track>] children
    when the call starts. *)
Definition initNativeTextTrack (elems : nat) (tracks : list NonNativeTextTrack)
  : State → State :=
  JS.forEach
    (λ st t idx,
       with_video (map_v_textTracks (appendChild_track (elems + idx) (placeholder_of t))) st)
    tracks.

(** *** User-driven changes of the text tracks *)

(** Body of the loop of the [onTextTracksChange] closure of [initHls], on
    the engine the closure captured. *)
Definition subtitle_for (t : TextTrack) (h : Hls) : Hls :=
  if bool_decide (tt_mode t ≠ disabled) then
    let idx := JS.findIndex (λ hlsTrack, isCorrespondingTrack t hlsTrack) (subtitleTracks h) in
    if (0 <=? idx)%Z && negb (bool_decide (subtitleTrack h = idx))
    then hls_command (SetSubtitleTrack idx) h
    else h
  else h.

(** The [onTextTracksChange] closure.  It is subscribed for the life of the
    engine instance it captured, which is [this.hlsInstance] meanwhile.  As
    everywhere, a write to the engine is a command; what the engine makes
    of it, and when, is the engine's. *)
Definition onTextTracksChange_body (st : State) : State :=
  match hlsInstance (this st) with
  | Some h =>
      with_this
        (set_hlsInstance (Some (foldl (λ h t, subtitle_for t h) h (v_textTracks (video st)))))
        st
  | None => st
  end.

(** A text track asks for no switch when it is disabled, when no rendition
    corresponds to it, or when the first rendition that corresponds to it
    is the active one. *)
Definition quiet_track (h : Hls) (t : TextTrack) : Prop :=
  tt_mode t = disabled
  ∨ (∀ mp, mp ∈ subtitleTracks h → isCorrespondingTrack t mp = false)
  ∨ ∃ k, JS.first_index_of (λ mp, isCorrespondingTrack t mp = true) (subtitleTracks h) k
         ∧ subtitleTrack h = Z.of_nat k.

(** ** States of a ponyfill in use *)

(** A track list whose tracks and listeners were allocated before the
    counters [n] and [k], each track object once. *)
Definition tl_ok {T} (oid_of : T → nat) (n k : nat) (L : TrackList T) : Prop :=
  (∀ t, t ∈ tl_tracks L → oid_of t < n)
  ∧ NoDup (oid_of <$> tl_tracks L)
  ∧ (∀ f, f ∈ tl_change L → f < k).

(** The heap invariant: references point into the heap, the counters are
    ahead of everything allocated, and a provenance set is empty while its
    list is unbound. *)
Record heap_wf (st : State) : Prop := {
  wf_vlists : ∀ l L, vlists (heap st) !! l = Some L →
                tl_ok vt_oid (nextOid (heap st)) (nextFn (heap st)) L;
  wf_alists : ∀ l L, alists (heap st) !! l = Some L →
                tl_ok at_oid (nextOid (heap st)) (nextFn (heap st)) L;
  wf_vbound : ∀ l, videoTrackList (this st) = Some l → is_Some (vlists (heap st) !! l);
  wf_abound : ∀ l, audioTrackList (this st) = Some l → is_Some (alists (heap st) !! l);
  wf_vslot : ∀ l, v_videoTracks (video st) = JVideoTrackList l →
               is_Some (vlists (heap st) !! l);
  wf_aslot : ∀ l, v_audioTracks (video st) = JAudioTrackList l →
               is_Some (alists (heap st) !! l);
  wf_vcreated : ∀ o, o ∈ createdVideoTracks (this st) → o < nextOid (heap st);
  wf_acreated : ∀ o, o ∈ createdAudioTracks (this st) → o < nextOid (heap st);
  wf_vunbound : videoTrackList (this st) = None → createdVideoTracks (this st) = [];
  wf_aunbound : audioTrackList (this st) = None → createdAudioTracks (this st) = [];
  wf_tfns : ∀ f, f ∈ v_textTracks_change (video st) → f < nextFn (heap st) }.

(** The session invariant: a recorded HLS source is a non-empty string and
    comes with an engine instance; an engine instance is attached to this
    element and comes with both lists bound. *)
Record session_wf (st : State) : Prop := {
  wf_src : ∀ src, hlsSrc (this st) = Some src →
             JS.truthy_str src = true ∧ is_Some (hlsInstance (this st));
  wf_media : ∀ h, hlsInstance (this st) = Some h → media h = Some (v_elem (video st));
  wf_lists : is_Some (hlsInstance (this st)) →
             is_Some (videoTrackList (this st)) ∧ is_Some (audioTrackList (this st)) }.

(** What can happen to a ponyfill: calls of its public members, events of
    the engine it subscribed to (with the engine as it is then), progress
    of the engine itself, and changes of the lists it listens to. *)
Inductive step : State → State → Prop :=
| step_setSrc src st : step st (fst (setSrc src st))
| step_detach st : step st (detach st)
| step_set_currentTime value st : step st (set_currentTime value st)
| step_Hls_setter HlsCtor st : step st (Hls_setter HlsCtor st)
| step_engine h h' st :
    hlsInstance (this st) = Some h → media h' = media h →
    step st (with_this (set_hlsInstance (Some h')) st)
| step_MANIFEST_LOADED h st : step st (updateTrackLists h st)
| step_LEVEL_SWITCHED h st : step st (updateVideoTrack h st)
| step_AUDIO_TRACK_SWITCHED h st : step st (updateAudioTrack h st)
| step_SUBTITLE_TRACK_SWITCH h st : step st (updateTextTrack h st)
| step_NON_NATIVE_TEXT_TRACKS_FOUND elems tracks st :
    step st (initNativeTextTrack elems tracks st)
| step_CUES_PARSED cues h st : step st (addCues cues h st)
| step_videoTracks_change st : step st (onVideoTracksChange st)
| step_audioTracks_change st : step st (onAudioTracksChange st)
| step_textTracks_change st : step st (onTextTracksChange_body st).
End Core.

Arguments VTTCue : clear implicits.
Arguments TextTrack : clear implicits.
Arguments Video : clear implicits.
Arguments State : clear implicits.

(** ** Sample data: a two-level manifest with one audio rendition, English
    subtitles, and times in whole seconds *)

Module Sample.

Definition clampZ (v lo hi : Z) : Z := Z.min (Z.max v lo) hi.

Definition level480 : Level :=
  {| lv_name := Some "480p"; lv_LANGUAGE := None; lv_width := 854;
     lv_height := 480; lv_bitrate := 1000000; lv_url := ["480.m3u8"] |}.

Definition level720 : Level :=
  {| lv_name := Some "720p"; lv_LANGUAGE := None; lv_width := 1280;
     lv_height := 720; lv_bitrate := 2000000; lv_url := ["720.m3u8"] |}.

Definition audio_en : MediaPlaylist :=
  {| mp_type := "AUDIO"; mp_name := "English"; mp_lang := Some "en";
     mp_url := "audio-en.m3u8" |}.

Definition audio_de : MediaPlaylist :=
  {| mp_type := "AUDIO"; mp_name := "Deutsch"; mp_lang := Some "de";
     mp_url := "audio-de.m3u8" |}.

Definition subs_en : MediaPlaylist :=
  {| mp_type := "SUBTITLES"; mp_name := "English"; mp_lang := Some "en";
     mp_url := "subs-en.m3u8" |}.

(** The engine after the manifest is in, attached to element 7, playing
    level 1, audio 0, subtitles 0. *)
Definition engine : Hls :=
  {| levels := [level480; level720]; currentLevel := 1;
     audioTracks := [audio_en; audio_de]; audioTrack := 0;
     subtitleTracks := [subs_en]; subtitleTrack := 0;
     media := Some 7; commands := [] |}.

Definition placeholder (m : TextTrackMode) : TextTrack Z :=
  {| tt_kind := "subtitles"; tt_label := "English"; tt_language := "en";
     tt_mode := m; tt_cues := []; tt_ponyfill := true |}.

Definition chapters : TextTrack Z :=
  {| tt_kind := "chapters"; tt_label := "Chapters"; tt_language := "en";
     tt_mode := showing; tt_cues := []; tt_ponyfill := false |}.

Definition cue_hi : VTTCue Z := {| startTime := 1%Z; endTime := 2%Z; text := "Hi" |}.
Definition cue_bye : VTTCue Z := {| startTime := 3%Z; endTime := 4%Z; text := "Bye" |}.

Definition element (tts : list (TextTrack Z)) (src : option string) : Video Z :=
  {| v_elem := 7; v_src := src; v_currentTime := 0%Z; v_seekable := [(10, 50)%Z];
     v_textTracks := tts; v_textTracks_change := [];
     v_videoTracks := JUndefined; v_audioTracks := JUndefined |}.

Definition idle : Ponyfill :=
  {| hlsInstance := None; hlsSrc := None; seekableTimeRanges := None;
     videoTrackList := None; audioTrackList := None;
     createdVideoTracks := []; createdAudioTracks := [];
     onVideoTracksChangeBound := None; onAudioTracksChangeBound := None;
     onTextTracksChange := None |}.

Definition empty_heap : Heap :=
  {| vlists := ∅; alists := ∅; nextOid := 0; nextFn := 0 |}.

(** A fresh ponyfill on an element that plays nothing; no constructor
    registered. *)
Definition fresh_state : State Z :=
  {| this := idle; video := element [] None; heap := empty_heap;
     HlsConstructor := None; globalThis_Hls := None |}.

(** An entry some other player put on the video list before the session. *)
Definition dash_video : VideoTrack :=
  {| vt_oid := 0; vt_id := Some "dash-1080"; vt_language := None;
     vt_label := Some "1080p"; vt_width := 1920; vt_height := 1080;
     vt_bitrate := 4000000; vt_selected := false |}.

Definition VL0 : TrackList VideoTrack := {| tl_tracks := [dash_video]; tl_change := [0] |}.
Definition AL0 : TrackList AudioTrack := {| tl_tracks := []; tl_change := [1] |}.

Definition bound (h : Hls) (cv ca : list nat) : Ponyfill :=
  {| hlsInstance := Some h; hlsSrc := Some "https://host/master.m3u8";
     seekableTimeRanges := Some SeekableTimeRanges_new;
     videoTrackList := Some 0; audioTrackList := Some 0;
     createdVideoTracks := cv; createdAudioTracks := ca;
     onVideoTracksChangeBound := Some 0; onAudioTracksChangeBound := Some 1;
     onTextTracksChange := Some 2 |}.

Definition surface (tts : list (TextTrack Z)) : Video Z :=
  {| v_elem := 7; v_src := Some "blob:media-source"; v_currentTime := 0%Z;
     v_seekable := [(10, 50)%Z]; v_textTracks := tts; v_textTracks_change := [2];
     v_videoTracks := JVideoTrackList 0; v_audioTracks := JAudioTrackList 0 |}.

(** A session whose manifest has just arrived: the lists are bound and hold
    only the foreign entry. *)
Definition session : State Z :=
  {| this := bound engine [] [];
     video := surface [placeholder hidden; chapters];
     heap := {| vlists := {[0 := VL0]}; alists := {[0 := AL0]};
                nextOid := 1; nextFn := 3 |};
     HlsConstructor := Some 1; globalThis_Hls := None |}.

Definition v480 (sel : bool) : VideoTrack :=
  {| vt_oid := 1; vt_id := Some "480.m3u8"; vt_language := None;
     vt_label := Some "480p"; vt_width := 854; vt_height := 480;
     vt_bitrate := 1000000; vt_selected := sel |}.

Definition v720 (sel : bool) : VideoTrack :=
  {| vt_oid := 2; vt_id := Some "720.m3u8"; vt_language := None;
     vt_label := Some "720p"; vt_width := 1280; vt_height := 720;
     vt_bitrate := 2000000; vt_selected := sel |}.

Definition a_en (en : bool) : AudioTrack :=
  {| at_oid := 3; at_id := "audio-en.m3u8"; at_language := Some "en";
     at_label := "English"; at_enabled := en |}.

Definition a_de (en : bool) : AudioTrack :=
  {| at_oid := 4; at_id := "audio-de.m3u8"; at_language := Some "de";
     at_label := "Deutsch"; at_enabled := en |}.

Definition VL1 (s480 s720 : bool) : TrackList VideoTrack :=
  {| tl_tracks := [dash_video; v480 s480; v720 s720]; tl_change := [0] |}.

Definition AL1 (en de : bool) : TrackList AudioTrack :=
  {| tl_tracks := [a_en en; a_de de]; tl_change := [1] |}.

(** The session with its lists populated; the flags of the entries and the
    engine are left open. *)
Definition populated (h : Hls) (s480 s720 en de : bool) : State Z :=
  {| this := bound h [1; 2] [3; 4];
     video := surface [placeholder hidden; chapters];
     heap := {| vlists := {[0 := VL1 s480 s720]}; alists := {[0 := AL1 en de]};
                nextOid := 5; nextFn := 3 |};
     HlsConstructor := Some 1; globalThis_Hls := None |}.


(** An engine whose manifest lists the same URL for two levels. *)
Definition engine_twins : Hls :=
  {| levels := [level480; level480]; currentLevel := 0;
     audioTracks := [audio_en]; audioTrack := 0;
     subtitleTracks := []; subtitleTrack := (-1);
     media := Some 7; commands := [] |}.

(** No session, a progressive file as source. *)
Definition progressive : State Z :=
  {| this := idle; video := element [] (Some "movie.mp4"); heap := empty_heap;
     HlsConstructor := None; globalThis_Hls := None |}.

(** The English subtitles as the engine reports them with
    NON_NATIVE_TEXT_TRACKS_FOUND. *)
Definition found_en : NonNativeTextTrack :=
  {| nn_kind := "subtitles"; nn_label := "English"; nn_default := false;
     nn_subtitleTrack := Some subs_en |}.

(** A page where [HLSPonyfill.Hls] was assigned, and a URL test that takes
    every source for HLS. *)
Definition registered : State Z :=
  {| this := idle; video := element [] None; heap := empty_heap;
     HlsConstructor := Some 1; globalThis_Hls := None |}.

(** The same page with one [<track>] child, the chapters. *)
Definition one_child : State Z :=
  {| this := idle; video := element [chapters] None; heap := empty_heap;
     HlsConstructor := Some 1; globalThis_Hls := None |}.

Definition always_hls (src : string) : bool := true.

Definition no_protocol (src : string) : string := EmptyString.

End Sample.

(** ** Properties *)

Section Facts.

Context {Num : Type} `{EqDecision Num}.
Variable clamp : Num → Num → Num → Num.
Variable isHlsSource : string → bool.
Variable getUrlProtocol : string → string.

(** *** Arrays *)

Lemma findIndex_from_cases {A} (p : A → bool) (arr : list A) (k0 : Z) :
  (JS.findIndex_from p arr k0 = (-1)%Z ∧ ∀ x, x ∈ arr → p x = false)
  ∨ (∃ k x, JS.findIndex_from p arr k0 = (k0 + Z.of_nat k)%Z
       ∧ arr !! k = Some x ∧ p x = true
       ∧ ∀ j y, j < k → arr !! j = Some y → p y = false).
Proof.
  revert k0. induction arr as [|a arr IH]; intros k0; simpl.
  - left. split; [done|]. intros x Hx. by apply elem_of_nil in Hx.
  - destruct (p a) eqn:Hpa.
    + right. exists 0, a. split_and!; [lia|done|done|]. intros j y Hj. lia.
    + destruct (IH (k0 + 1)%Z) as [[Hm Hall]|(k & x & Hk & Hx & Hpx & Hmin)].
      * left. split; [done|]. intros x [->|Hin]%elem_of_cons; auto.
      * right. exists (S k), x. split_and!; [lia|done|done|].
        intros [|j] y Hj Hy; simpl in Hy; [by injection Hy as <-|].
        apply (Hmin j); [lia|done].
Qed.

Lemma findIndex_cases {A} (p : A → bool) (arr : list A) :
  (JS.findIndex p arr = (-1)%Z ∧ ∀ x, x ∈ arr → p x = false)
  ∨ (∃ k x, JS.findIndex p arr = Z.of_nat k
       ∧ arr !! k = Some x ∧ p x = true
       ∧ ∀ j y, j < k → arr !! j = Some y → p y = false).
Proof.
  destruct (findIndex_from_cases p arr 0) as [?|(k & x & Hk & ?)]; [by left|].
  right. exists k, x. by rewrite Z.add_0_l in Hk.
Qed.

Lemma index_inv {A} (arr : list A) (i : Z) (x : A) :
  JS.index arr i = Some x → (0 ≤ i)%Z ∧ arr !! Z.to_nat i = Some x.
Proof.
  unfold JS.index. destruct (Z.ltb_spec i 0); [done|]. by split.
Qed.

Lemma index_elem_of {A} (arr : list A) (i : Z) (x : A) :
  JS.index arr i = Some x → x ∈ arr.
Proof. intros [_ Hx]%index_inv. by eapply list_elem_of_lookup_2. Qed.

Lemma findIndex_first {A} (P : A → Prop) `{∀ x, Decision (P x)} (arr : list A) (k : nat) :
  JS.first_index_of P arr k →
  JS.findIndex (λ x, bool_decide (P x)) arr = Z.of_nat k.
Proof.
  intros [(x & Hx & HPx) Hmin].
  destruct (findIndex_cases (λ x, bool_decide (P x)) arr)
    as [[_ Hall]|(k' & x' & -> & Hx' & HPx' & Hmin')].
  - apply list_elem_of_lookup_2 in Hx. specialize (Hall x Hx).
    by apply bool_decide_eq_false in Hall.
  - apply bool_decide_eq_true in HPx'.
    destruct (Nat.lt_trichotomy k k') as [Hlt|[->|Hgt]]; [|done|].
    + specialize (Hmin' k x Hlt Hx). by apply bool_decide_eq_false in Hmin'.
    + by destruct (Hmin k' x' Hgt Hx').
Qed.

Lemma findIndex_none {A} (P : A → Prop) `{∀ x, Decision (P x)} (arr : list A) :
  (∀ x, x ∈ arr → ¬ P x) →
  JS.findIndex (λ x, bool_decide (P x)) arr = (-1)%Z.
Proof.
  intros Hall.
  destruct (findIndex_cases (λ x, bool_decide (P x)) arr)
    as [[-> _]|(k' & x' & _ & Hx' & HPx' & _)]; [done|].
  apply bool_decide_eq_true in HPx'. apply list_elem_of_lookup_2 in Hx'.
  by destruct (Hall x' Hx').
Qed.

(** Counting the entries that carry a flag. *)


Lemma filter_none {A} (P : A → Prop) `{∀ x, Decision (P x)} (l : list A) :
  (∀ x, x ∈ l → ¬ P x) → filter P l = [].
Proof.
  induction l as [|a l IH]; intros Hall; [done|].
  rewrite filter_cons_False by (apply Hall; left).
  apply IH. intros x Hx. apply Hall. by right.
Qed.

Lemma filter_all {A} (P : A → Prop) `{∀ x, Decision (P x)} (l : list A) :
  (∀ x, x ∈ l → P x) → filter P l = l.
Proof.
  induction l as [|a l IH]; intros Hall; [done|].
  rewrite filter_cons_True by (apply Hall; left).
  f_equal. apply IH. intros x Hx. apply Hall. by right.
Qed.


(** *** Track lists in the heap *)

Lemma on_vlist_compose vl f g (st : State Num) :
  on_vlist vl f (on_vlist vl g st) = on_vlist vl (f ∘ g) st.
Proof. unfold on_vlist, with_heap, map_vlists. simpl. by rewrite alter_alter_eq. Qed.

Lemma on_alist_compose al f g (st : State Num) :
  on_alist al f (on_alist al g st) = on_alist al (f ∘ g) st.
Proof. unfold on_alist, with_heap, map_alists. simpl. by rewrite alter_alter_eq. Qed.

Lemma on_vlist_ext vl f g (st : State Num) :
  (∀ L, f L = g L) → on_vlist vl f st = on_vlist vl g st.
Proof.
  intros Hfg. unfold on_vlist, with_heap, map_vlists.
  do 2 f_equal. apply alter_ext. auto.
Qed.

Lemma on_alist_ext al f g (st : State Num) :
  (∀ L, f L = g L) → on_alist al f st = on_alist al g st.
Proof.
  intros Hfg. unfold on_alist, with_heap, map_alists.
  do 2 f_equal. apply alter_ext. auto.
Qed.

Lemma on_vlist_id vl f (st : State Num) :
  (∀ L, f L = L) → on_vlist vl f st = st.
Proof.
  intros Hf. destruct st as [p v [vls als no nf] c g].
  unfold on_vlist, with_heap, map_vlists. simpl.
  do 2 f_equal. apply alter_id. auto.
Qed.

Lemma on_alist_id al f (st : State Num) :
  (∀ L, f L = L) → on_alist al f st = st.
Proof.
  intros Hf. destruct st as [p v [vls als no nf] c g].
  unfold on_alist, with_heap, map_alists. simpl.
  do 2 f_equal. apply alter_id. auto.
Qed.

Lemma tl_map_tracks_id {T} (f : list T → list T) (L : TrackList T) :
  f (tl_tracks L) = tl_tracks L → tl_map_tracks f L = L.
Proof. intros Hf. destruct L. unfold tl_map_tracks. simpl in *. by rewrite Hf. Qed.

Lemma filter_not_in_cons {T} (key : T → nat) (o : nat) (os : list nat) (l : list T) :
  filter (λ t, key t ∉ os) (filter (λ t, key t ≠ o) l)
  = filter (λ t, key t ∉ o :: os) l.
Proof.
  rewrite list_filter_filter. apply list_filter_iff.
  intros t. rewrite not_elem_of_cons. tauto.
Qed.

(** Removing the tracks of a provenance set one by one leaves the entries
    that are not in the set. *)
Lemma foldl_remove_video_track (os : list nat) (st : State Num) (vl : nat) :
  videoTrackList (this st) = Some vl →
  foldl remove_video_track st os
  = on_vlist vl (tl_map_tracks (filter (λ t, vt_oid t ∉ os))) st.
Proof.
  revert st. induction os as [|o os IH]; intros st Hvl; simpl.
  - symmetry. apply on_vlist_id. intros L. apply tl_map_tracks_id.
    apply filter_all. intros t _. apply not_elem_of_nil.
  - rewrite IH by (unfold remove_video_track; by rewrite Hvl).
    unfold remove_video_track. rewrite Hvl, on_vlist_compose.
    apply on_vlist_ext. intros L. unfold removeTrack, tl_map_tracks. simpl.
    by rewrite filter_not_in_cons.
Qed.

Lemma foldl_remove_audio_track (os : list nat) (st : State Num) (al : nat) :
  audioTrackList (this st) = Some al →
  foldl remove_audio_track st os
  = on_alist al (tl_map_tracks (filter (λ t, at_oid t ∉ os))) st.
Proof.
  revert st. induction os as [|o os IH]; intros st Hal; simpl.
  - symmetry. apply on_alist_id. intros L. apply tl_map_tracks_id.
    apply filter_all. intros t _. apply not_elem_of_nil.
  - rewrite IH by (unfold remove_audio_track; by rewrite Hal).
    unfold remove_audio_track. rewrite Hal, on_alist_compose.
    apply on_alist_ext. intros L. unfold removeTrack, tl_map_tracks. simpl.
    by rewrite filter_not_in_cons.
Qed.

(** *** Subtitle modes and cues *)

Lemma tt_set_cues_id (t : TextTrack Num) : tt_set_cues (tt_cues t) t = t.
Proof. by destruct t. Qed.

Lemma tt_set_cues_twice cs cs' (t : TextTrack Num) :
  tt_set_cues cs (tt_set_cues cs' t) = tt_set_cues cs t.
Proof. done. Qed.

Lemma same_cue_refl (c : VTTCue Num) : same_cue c c.
Proof. by unfold same_cue. Qed.

Lemma switch_mode_mode track (t : TextTrack Num) :
  tt_mode (switch_mode track t) =
    if isCorrespondingTrack t track
    then (if decide (tt_mode t = disabled) then showing else tt_mode t)
    else disabled.
Proof.
  unfold switch_mode.
  destruct (isCorrespondingTrack t track); simpl;
    repeat case_bool_decide; repeat case_decide; simpl; try done.
Qed.

Lemma switch_mode_rest track (t : TextTrack Num) :
  switch_mode track t = tt_set_mode (tt_mode (switch_mode track t)) t.
Proof.
  unfold switch_mode.
  destruct (isCorrespondingTrack t track); simpl;
    repeat case_bool_decide; simpl; try done; by destruct t.
Qed.

Lemma switch_mode_active_count track (ts : list (TextTrack Num)) :
  length (filter (λ t, tt_mode t ≠ disabled) (switch_mode track <$> ts)) =
  length (filter (λ t, isCorrespondingTrack t track = true) ts).
Proof.
  induction ts as [|t ts IH]; [done|].
  rewrite fmap_cons, !filter_cons, switch_mode_mode.
  destruct (isCorrespondingTrack t track) eqn:Hc;
    repeat (case_decide; simpl); rewrite ?IH; try done; exfalso; naive_solver.
Qed.

(** What a batch of [addCueToTrack] calls leaves on a track: the old cues,
    then a sub-sequence of the batch that covers the batch up to duplicates
    and repeats nothing. *)
Lemma addCueToTrack_batch (cues : list (VTTCue Num)) (t : TextTrack Num) :
  ∃ added,
    foldl addCueToTrack t cues = tt_set_cues (tt_cues t ++ added) t
    ∧ sublist added cues
    ∧ (∀ c, c ∈ cues → Exists (same_cue c) (tt_cues t ++ added))
    ∧ (∀ a1 c a2, added = a1 ++ c :: a2 → ¬ Exists (same_cue c) (tt_cues t ++ a1)).
Proof.
  revert t. induction cues as [|c cues IH]; intros t.
  - exists []. rewrite app_nil_r, tt_set_cues_id. split_and!; [done|done|..].
    + intros c Hc. by apply elem_of_nil in Hc.
    + intros a1 c a2 Heq. by destruct a1.
  - simpl. unfold addCueToTrack at 2.
    destruct (decide (Exists (same_cue c) (tt_cues t))) as [Hdup|Hnew].
    + destruct (IH t) as (added & Heq & Hsub & Hcov & Hnodup).
      exists added. split_and!; [done| by apply sublist_cons |..|done].
      intros c' [->|Hin]%elem_of_cons; [|by apply Hcov].
      apply Exists_app. by left.
    + destruct (IH (tt_set_cues (tt_cues t ++ [c]) t))
        as (added & Heq & Hsub & Hcov & Hnodup).
      simpl in *. exists (c :: added).
      rewrite Heq, tt_set_cues_twice, <- app_assoc. simpl.
      split_and!; [done| by apply sublist_skip |..].
      * intros c' [->|Hin]%elem_of_cons.
        -- apply Exists_app. right. apply Exists_cons. left. apply same_cue_refl.
        -- specialize (Hcov c' Hin). by rewrite <- app_assoc in Hcov.
      * intros a1 c' a2 Heq'. destruct a1 as [|x a1]; simpl in Heq'.
        -- injection Heq' as -> _. by rewrite app_nil_r.
        -- injection Heq' as -> Heq'. specialize (Hnodup a1 c' a2 Heq').
           by rewrite <- app_assoc in Hnodup.
Qed.

(** C4 (as amended).  On a subtitle switch with an active rendition, every
    text track keeps everything but its mode; a corresponding track that
    was disabled becomes showing and one that was hidden or showing keeps
    its mode; every other track ends disabled.  The tracks that are not
    disabled afterwards are as many as the tracks that correspond. *)
Theorem C4_updateTextTrack_modes (h : Hls) (st : State Num) (track : MediaPlaylist) :
  JS.index (subtitleTracks h) (subtitleTrack h) = Some track →
  let before := v_textTracks (video st) in
  let after := v_textTracks (video (updateTextTrack h st)) in
  after = switch_mode track <$> before
  ∧ (∀ i t, before !! i = Some t →
       ∃ t', after !! i = Some t'
         ∧ t' = tt_set_mode (tt_mode t') t
         ∧ (isCorrespondingTrack t track = true →
              tt_mode t' ≠ disabled
              ∧ (tt_mode t = disabled → tt_mode t' = showing)
              ∧ (tt_mode t ≠ disabled → tt_mode t' = tt_mode t))
         ∧ (isCorrespondingTrack t track = false → tt_mode t' = disabled))
  ∧ length (filter (λ t, tt_mode t ≠ disabled) after)
    = length (filter (λ t, isCorrespondingTrack t track = true) before).
Proof.
  intros Htrack before after.
  assert (Hafter : after = switch_mode track <$> before).
  { subst after before. unfold updateTextTrack. by rewrite Htrack. }
  split_and!; [done|..].
  - intros i t Hi. exists (switch_mode track t). rewrite Hafter.
    split_and!.
    + by rewrite list_lookup_fmap, Hi.
    + apply switch_mode_rest.
    + intros Hc. rewrite switch_mode_mode, Hc.
      case_decide; split_and!; try done; intros; congruence.
    + intros Hc. by rewrite switch_mode_mode, Hc.
  - rewrite Hafter. apply switch_mode_active_count.
Qed.

(** C7.  Without an active subtitle rendition [addCues] changes nothing.
    With one, only the first corresponding text track changes, and only
    its cues: they become the old cues followed, in the order given, by
    the cues of the batch that duplicate nothing before them. *)
Theorem C7_addCues (cues : list (VTTCue Num)) (h : Hls) (st : State Num) :
  (JS.index (subtitleTracks h) (subtitleTrack h) = None →
     addCues cues h st = st)
  ∧ (∀ currentTrack,
       JS.index (subtitleTracks h) (subtitleTrack h) = Some currentTrack →
       match list_find (λ t, isCorrespondingTrack t currentTrack = true)
               (v_textTracks (video st)) with
       | None => addCues cues h st = st
       | Some (i, nativeTrack) =>
           ∃ added,
             addCues cues h st
             = with_video
                 (map_v_textTracks
                    (λ ts, <[i := tt_set_cues (tt_cues nativeTrack ++ added) nativeTrack]> ts))
                 st
             ∧ sublist added cues
             ∧ (∀ c, c ∈ cues → Exists (same_cue c) (tt_cues nativeTrack ++ added))
             ∧ (∀ a1 c a2, added = a1 ++ c :: a2 →
                  ¬ Exists (same_cue c) (tt_cues nativeTrack ++ a1))
       end).
Proof.
  split.
  - intros Hnone. unfold addCues. rewrite Hnone. by case_bool_decide.
  - intros currentTrack Hcur. unfold addCues.
    rewrite bool_decide_eq_false_2.
    2:{ intros Hm. unfold JS.index in Hcur. rewrite Hm in Hcur. simpl in Hcur.
        destruct (subtitleTracks h); done. }
    rewrite Hcur.
    destruct (list_find _ _) as [[i nativeTrack]|]; [|done].
    destruct (addCueToTrack_batch cues nativeTrack) as (added & Heq & Hrest).
    exists added. by rewrite Heq.
Qed.

(** *** Rendition synchroniser *)

(** C3.  On a change of a track list during a session: with no selected
    (enabled) entry, or when the first selected entry carries the
    identifier of the engine's active rendition, or when no rendition
    carries that identifier, the state, command log of the engine
    included, is unchanged; otherwise the only change is one command on
    the engine, switching to the first rendition with the identifier. *)
Theorem C3_user_selection_change (st : State Num) (h : Hls)
    (vl al : nat) (VL : TrackList VideoTrack) (AL : TrackList AudioTrack) :
  hls st = Some h →
  videoTrackList (this st) = Some vl → vlists (heap st) !! vl = Some VL →
  audioTrackList (this st) = Some al → alists (heap st) !! al = Some AL →
  match first_selected VL with
  | None => onVideoTracksChange st = st
  | Some sel =>
      ((∃ lv, JS.index (levels h) (currentLevel h) = Some lv ∧ level_id lv = vt_id sel) →
         onVideoTracksChange st = st)
      ∧ ((∀ lv, lv ∈ levels h → level_id lv ≠ vt_id sel) →
         onVideoTracksChange st = st)
      ∧ (∀ k,
           ¬ (∃ lv, JS.index (levels h) (currentLevel h) = Some lv ∧ level_id lv = vt_id sel) →
           JS.first_index_of (λ lv, level_id lv = vt_id sel) (levels h) k →
           onVideoTracksChange st
           = with_this (set_hlsInstance (Some (hls_command (SetCurrentLevel (Z.of_nat k)) h))) st)
  end
  ∧
  match first_enabled AL with
  | None => onAudioTracksChange st = st
  | Some sel =>
      ((∃ t, JS.index (audioTracks h) (audioTrack h) = Some t ∧ mp_url t = at_id sel) →
         onAudioTracksChange st = st)
      ∧ ((∀ t, t ∈ audioTracks h → mp_url t ≠ at_id sel) →
         onAudioTracksChange st = st)
      ∧ (∀ k,
           ¬ (∃ t, JS.index (audioTracks h) (audioTrack h) = Some t ∧ mp_url t = at_id sel) →
           JS.first_index_of (λ t, mp_url t = at_id sel) (audioTracks h) k →
           onAudioTracksChange st
           = with_this (set_hlsInstance (Some (hls_command (SetAudioTrack (Z.of_nat k)) h))) st)
  end.
Proof.
  intros Hhls Hvl HVL Hal HAL. split.
  - unfold onVideoTracksChange. rewrite Hhls, Hvl, HVL. simpl.
    destruct (first_selected VL) as [sel|]; [|done]. split_and!.
    + intros (lv & -> & Hid). by rewrite bool_decide_eq_true_2.
    + intros Hall.
      rewrite (findIndex_none (λ lv, level_id lv = vt_id sel)) by done.
      destruct (JS.index _ _) as [lv|] eqn:Hidx; [|done].
      rewrite bool_decide_eq_false_2; [done|].
      intros Heq. by apply (Hall lv (index_elem_of _ _ _ Hidx)).
    + intros k Hnot Hk.
      rewrite (findIndex_first (λ lv, level_id lv = vt_id sel) _ k) by done.
      rewrite (proj2 (Z.leb_le 0 (Z.of_nat k))) by lia.
      destruct (JS.index _ _) as [lv|] eqn:Hidx; [|done].
      rewrite bool_decide_eq_false_2; [done|].
      intros Heq. apply Hnot. by exists lv.
  - unfold onAudioTracksChange. rewrite Hhls, Hal, HAL. simpl.
    destruct (first_enabled AL) as [sel|]; [|done]. split_and!.
    + intros (t & -> & Hid). by rewrite bool_decide_eq_true_2.
    + intros Hall.
      rewrite (findIndex_none (λ t, mp_url t = at_id sel)) by done.
      destruct (JS.index _ _) as [t|] eqn:Hidx; [|done].
      rewrite bool_decide_eq_false_2; [done|].
      intros Heq. by apply (Hall t (index_elem_of _ _ _ Hidx)).
    + intros k Hnot Hk.
      rewrite (findIndex_first (λ t, mp_url t = at_id sel) _ k) by done.
      rewrite (proj2 (Z.leb_le 0 (Z.of_nat k))) by lia.
      destruct (JS.index _ _) as [t|] eqn:Hidx; [|done].
      rewrite bool_decide_eq_false_2; [done|].
      intros Heq. apply Hnot. by exists t.
Qed.

(** Lookup by identifier. *)


Lemma getVideoTrackById_None id VL :
  getVideoTrackById id VL = None ↔ ∀ t, t ∈ tl_tracks VL → vt_id t ≠ id.
Proof.
  unfold getVideoTrackById. rewrite fmap_None, list_find_None, Forall_forall.
  done.
Qed.


Lemma getAudioTrackById_None id AL :
  getAudioTrackById id AL = None ↔ ∀ t, t ∈ tl_tracks AL → at_id t ≠ id.
Proof.
  unfold getAudioTrackById. rewrite fmap_None, list_find_None, Forall_forall.
  done.
Qed.






(** Outside a session the change handlers do nothing. *)
Lemma change_handlers_idle (st : State Num) :
  hls st = None → onVideoTracksChange st = st ∧ onAudioTracksChange st = st.
Proof.
  intros Hhls. unfold onVideoTracksChange, onAudioTracksChange.
  by rewrite Hhls.
Qed.

(** C10.  The [currentTime] setter stores the clamped value exactly when an
    HLS source is recorded and the element has a seekable range, and the raw
    value otherwise; nothing else changes. *)
Theorem C10_set_currentTime (value : Num) (st : State Num) :
  (∀ src seekable_start seekable_end rest,
     hlsSrc (this st) = Some src →
     v_seekable (video st) = (seekable_start, seekable_end) :: rest →
     set_currentTime clamp value st
     = with_video (set_v_currentTime (clamp value seekable_start seekable_end)) st)
  ∧ (hlsSrc (this st) = None ∨ v_seekable (video st) = [] →
     set_currentTime clamp value st = with_video (set_v_currentTime value) st).
Proof.
  unfold set_currentTime. split.
  - intros src s e rest -> ->. done.
  - intros [-> | ->]; [done|]. by destruct (hlsSrc (this st)).
Qed.

(** *** Teardown *)

Lemma state_ext (s1 s2 : State Num) :
  this s1 = this s2 → video s1 = video s2 → heap s1 = heap s2 →
  HlsConstructor s1 = HlsConstructor s2 → globalThis_Hls s1 = globalThis_Hls s2 →
  s1 = s2.
Proof. destruct s1, s2. simpl. by intros -> -> -> -> ->. Qed.

(** What teardown does to one bound list: the stored listener and the
    tracks of the provenance set go, everything else stays. *)
Lemma clear_video_tracks_bound (st : State Num) (vl : nat) :
  videoTrackList (this st) = Some vl →
  clear_video_tracks st
  = with_this (map_createdVideoTracks (λ _, []))
      (on_vlist vl
         (λ L, {| tl_tracks := filter (λ t, vt_oid t ∉ createdVideoTracks (this st)) (tl_tracks L);
                  tl_change := match onVideoTracksChangeBound (this st) with
                               | Some fn => JS.removeEventListener fn (tl_change L)
                               | None => tl_change L
                               end |})
         st).
Proof.
  intros Hvl. unfold clear_video_tracks. rewrite Hvl.
  destruct (onVideoTracksChangeBound (this st)) as [fn|].
  - erewrite foldl_remove_video_track by done. simpl.
    by rewrite on_vlist_compose.
  - erewrite foldl_remove_video_track by done. done.
Qed.

Lemma clear_audio_tracks_bound (st : State Num) (al : nat) :
  audioTrackList (this st) = Some al →
  clear_audio_tracks st
  = with_this (map_createdAudioTracks (λ _, []))
      (on_alist al
         (λ L, {| tl_tracks := filter (λ t, at_oid t ∉ createdAudioTracks (this st)) (tl_tracks L);
                  tl_change := match onAudioTracksChangeBound (this st) with
                               | Some fn => JS.removeEventListener fn (tl_change L)
                               | None => tl_change L
                               end |})
         st).
Proof.
  intros Hal. unfold clear_audio_tracks. rewrite Hal.
  destruct (onAudioTracksChangeBound (this st)) as [fn|].
  - erewrite foldl_remove_audio_track by done. simpl.
    by rewrite on_alist_compose.
  - erewrite foldl_remove_audio_track by done. done.
Qed.

Lemma clear_video_tracks_unbound (st : State Num) :
  videoTrackList (this st) = None → clear_video_tracks st = st.
Proof. intros Hvl. unfold clear_video_tracks. by rewrite Hvl. Qed.

Lemma clear_audio_tracks_unbound (st : State Num) :
  audioTrackList (this st) = None → clear_audio_tracks st = st.
Proof. intros Hal. unfold clear_audio_tracks. by rewrite Hal. Qed.

Ltac teardown_blocks st :=
  unfold detachHls, remove_placeholders;
  destruct (videoTrackList (this st)) as [vl|] eqn:Hvl;
    [ rewrite (clear_video_tracks_bound _ vl) by done
    | rewrite clear_video_tracks_unbound by done ];
  (destruct (audioTrackList (this st)) as [al|] eqn:Hal;
    [ rewrite (clear_audio_tracks_bound _ al) by done
    | rewrite clear_audio_tracks_unbound by done ]);
  unfold destroy_instance, engine_teardown; simpl;
  destruct (hlsInstance (this st)) as [hi|] eqn:Hhi;
  destruct (onTextTracksChange (this st)) as [ft|] eqn:Hft; simpl;
  unfold set_seekableTimeRanges, set_hlsSrc, set_hlsInstance,
    set_onTextTracksChange, map_createdAudioTracks, map_createdVideoTracks,
    map_v_textTracks, map_v_textTracks_change, map_vlists, map_alists;
  simpl; rewrite ?Hvl, ?Hal, ?Hhi, ?Hft.

Lemma detachHls_this (st : State Num) :
  this (detachHls st) =
  {| hlsInstance := None; hlsSrc := None; seekableTimeRanges := None;
     videoTrackList := videoTrackList (this st);
     audioTrackList := audioTrackList (this st);
     createdVideoTracks :=
       if videoTrackList (this st) is Some _ then [] else createdVideoTracks (this st);
     createdAudioTracks :=
       if audioTrackList (this st) is Some _ then [] else createdAudioTracks (this st);
     onVideoTracksChangeBound := onVideoTracksChangeBound (this st);
     onAudioTracksChangeBound := onAudioTracksChangeBound (this st);
     onTextTracksChange :=
       if hlsInstance (this st) is Some _ then None else onTextTracksChange (this st) |}.
Proof. teardown_blocks st; reflexivity. Qed.

Lemma detachHls_video (st : State Num) :
  video (detachHls st) =
  {| v_elem := v_elem (video st); v_src := v_src (video st);
     v_currentTime := v_currentTime (video st);
     v_seekable := v_seekable (video st);
     v_textTracks := filter (λ t, tt_ponyfill t = false) (v_textTracks (video st));
     v_textTracks_change :=
       match hlsInstance (this st), onTextTracksChange (this st) with
       | Some _, Some fn => JS.removeEventListener fn (v_textTracks_change (video st))
       | _, _ => v_textTracks_change (video st)
       end;
     v_videoTracks := v_videoTracks (video st);
     v_audioTracks := v_audioTracks (video st) |}.
Proof. teardown_blocks st; reflexivity. Qed.

Lemma detachHls_heap (st : State Num) :
  heap (detachHls st) =
  {| vlists :=
       match videoTrackList (this st) with
       | Some vl =>
           alter
             (λ L, {| tl_tracks := filter (λ t, vt_oid t ∉ createdVideoTracks (this st)) (tl_tracks L);
                      tl_change := match onVideoTracksChangeBound (this st) with
                                   | Some fn => JS.removeEventListener fn (tl_change L)
                                   | None => tl_change L
                                   end |})
             vl (vlists (heap st))
       | None => vlists (heap st)
       end;
     alists :=
       match audioTrackList (this st) with
       | Some al =>
           alter
             (λ L, {| tl_tracks := filter (λ t, at_oid t ∉ createdAudioTracks (this st)) (tl_tracks L);
                      tl_change := match onAudioTracksChangeBound (this st) with
                                   | Some fn => JS.removeEventListener fn (tl_change L)
                                   | None => tl_change L
                                   end |})
             al (alists (heap st))
       | None => alists (heap st)
       end;
     nextOid := nextOid (heap st);
     nextFn := nextFn (heap st) |}.
Proof. teardown_blocks st; try reflexivity; by destruct (heap st). Qed.

Lemma detachHls_statics (st : State Num) :
  HlsConstructor (detachHls st) = HlsConstructor st
  ∧ globalThis_Hls (detachHls st) = globalThis_Hls st.
Proof. teardown_blocks st; by split. Qed.

Lemma filter_twice {A} (P : A → Prop) `{∀ x, Decision (P x)} (l : list A) :
  filter P (filter P l) = filter P l.
Proof. apply filter_all. intros x Hx. by apply list_elem_of_filter in Hx as [? _]. Qed.

Lemma removeEventListener_twice fn ls :
  JS.removeEventListener fn (JS.removeEventListener fn ls) = JS.removeEventListener fn ls.
Proof. apply filter_twice. Qed.

Lemma removeEventListener_added fn ls :
  fn ∉ ls → JS.removeEventListener fn (JS.addEventListener fn ls) = ls.
Proof.
  intros Hfresh. unfold JS.addEventListener, JS.removeEventListener.
  rewrite decide_False by done. rewrite filter_app, filter_cons_False by naive_solver.
  rewrite filter_nil, app_nil_r. apply filter_all. intros g Hg ->. done.
Qed.

Lemma detachHls_idempotent (st : State Num) :
  detachHls (detachHls st) = detachHls st.
Proof.
  apply state_ext.
  - rewrite (detachHls_this (detachHls st)), (detachHls_this st). simpl.
    by destruct (videoTrackList (this st)), (audioTrackList (this st)),
      (hlsInstance (this st)).
  - rewrite (detachHls_video (detachHls st)), (detachHls_video st),
      (detachHls_this st). simpl. by rewrite filter_twice.
  - rewrite (detachHls_heap (detachHls st)), (detachHls_heap st),
      (detachHls_this st). simpl. f_equal.
    + destruct (videoTrackList (this st)) as [vl|]; [|done].
      rewrite alter_alter_eq. apply alter_ext. intros L _. simpl. f_equal.
      * apply filter_all. intros t _. apply not_elem_of_nil.
      * destruct (onVideoTracksChangeBound (this st)); [|done].
        apply removeEventListener_twice.
    + destruct (audioTrackList (this st)) as [al|]; [|done].
      rewrite alter_alter_eq. apply alter_ext. intros L _. simpl. f_equal.
      * apply filter_all. intros t _. apply not_elem_of_nil.
      * destruct (onAudioTracksChangeBound (this st)); [|done].
        apply removeEventListener_twice.
  - destruct (detachHls_statics (detachHls st)) as [-> _]. done.
  - destruct (detachHls_statics (detachHls st)) as [_ ->]. done.
Qed.

Lemma detachHls_set_v_src (s : option string) (st : State Num) :
  detachHls (with_video (set_v_src s) st) = with_video (set_v_src s) (detachHls st).
Proof.
  apply state_ext;
    cbn [this video heap HlsConstructor globalThis_Hls with_video].
  - by rewrite !detachHls_this.
  - by rewrite !detachHls_video.
  - by rewrite !detachHls_heap.
  - by destruct (detachHls_statics (with_video (set_v_src s) st)) as [-> _],
      (detachHls_statics st) as [-> _].
  - by destruct (detachHls_statics (with_video (set_v_src s) st)) as [_ ->],
      (detachHls_statics st) as [_ ->].
Qed.

(** C5 (as amended).  [setSrc('')] never throws and clears the [src]
    attribute, the engine instance, the recorded HLS source and the
    placeholder tracks; a second call changes nothing more.  [detach]
    never throws either, is idempotent, and clears the same things except
    the [src] attribute: with no session it leaves the attribute as it
    was. *)
Theorem C5_teardown_idempotent (st : State Num) :
  let once := setSrc isHlsSource getUrlProtocol EmptyString st in
  let twice := setSrc isHlsSource getUrlProtocol EmptyString (fst once) in
  (snd once = Return () ∧ snd twice = Return () ∧ fst twice = fst once
   ∧ v_src (video (fst once)) = None
   ∧ hlsInstance (this (fst once)) = None
   ∧ hlsSrc (this (fst once)) = None
   ∧ Forall (λ t, tt_ponyfill t = false) (v_textTracks (video (fst once))))
  ∧ (detach (detach st) = detach st
     ∧ hlsInstance (this (detach st)) = None
     ∧ hlsSrc (this (detach st)) = None
     ∧ Forall (λ t, tt_ponyfill t = false) (v_textTracks (video (detach st))))
  ∧ (hlsInstance (this st) = None →
     v_src (video (detach st)) = v_src (video st)).
Proof.
  assert (Hno : ∀ l : list (TextTrack Num),
             Forall (λ t, tt_ponyfill t = false) (filter (λ t, tt_ponyfill t = false) l)).
  { intros l. apply Forall_forall. intros t Ht.
    by apply list_elem_of_filter in Ht as [? _]. }
  cbv zeta. unfold setSrc, detach.
  cbn [JS.truthy_str negb fst snd this video with_video].
  rewrite detachHls_set_v_src, detachHls_idempotent.
  cbn [this video with_video].
  rewrite !detachHls_this, !detachHls_video.
  cbn [v_src v_textTracks set_v_src hlsInstance hlsSrc].
  split_and!; try done; apply Hno.
Qed.

(** C6.  With both lists bound, [detach] empties the two provenance sets;
    each bound list keeps, in order and untouched, exactly the entries that
    were not in its provenance set; no other list changes. *)
Theorem C6_detach_removes_only_created (st : State Num)
    (vl al : nat) (VL : TrackList VideoTrack) (AL : TrackList AudioTrack) :
  videoTrackList (this st) = Some vl → vlists (heap st) !! vl = Some VL →
  audioTrackList (this st) = Some al → alists (heap st) !! al = Some AL →
  createdVideoTracks (this (detach st)) = []
  ∧ createdAudioTracks (this (detach st)) = []
  ∧ (∃ VL', vlists (heap (detach st)) !! vl = Some VL'
       ∧ tl_tracks VL'
         = filter (λ t, vt_oid t ∉ createdVideoTracks (this st)) (tl_tracks VL)
       ∧ ∀ t, t ∈ tl_tracks VL' ↔
              t ∈ tl_tracks VL ∧ vt_oid t ∉ createdVideoTracks (this st))
  ∧ (∃ AL', alists (heap (detach st)) !! al = Some AL'
       ∧ tl_tracks AL'
         = filter (λ t, at_oid t ∉ createdAudioTracks (this st)) (tl_tracks AL)
       ∧ ∀ t, t ∈ tl_tracks AL' ↔
              t ∈ tl_tracks AL ∧ at_oid t ∉ createdAudioTracks (this st))
  ∧ (∀ l, l ≠ vl → vlists (heap (detach st)) !! l = vlists (heap st) !! l)
  ∧ (∀ l, l ≠ al → alists (heap (detach st)) !! l = alists (heap st) !! l).
Proof.
  intros Hvl HVL Hal HAL. unfold detach.
  rewrite detachHls_this, detachHls_heap, Hvl, Hal.
  cbn [createdVideoTracks createdAudioTracks vlists alists].
  split_and!; [done|done|..].
  - eexists. rewrite lookup_alter_eq, HVL. split_and!; [done|done|].
    intros t. cbn [tl_tracks]. rewrite list_elem_of_filter. tauto.
  - eexists. rewrite lookup_alter_eq, HAL. split_and!; [done|done|].
    intros t. cbn [tl_tracks]. rewrite list_elem_of_filter. tauto.
  - intros l Hl. by rewrite lookup_alter_ne.
  - intros l Hl. by rewrite lookup_alter_ne.
Qed.

(** *** Binding the track lists and starting a session *)




Lemma Hls_getter_ext (s1 s2 : State Num) :
  HlsConstructor s1 = HlsConstructor s2 → globalThis_Hls s1 = globalThis_Hls s2 →
  Hls_getter s1 = Hls_getter s2.
Proof. unfold Hls_getter. by intros -> ->. Qed.

Lemma initVideoTrackList_frame (st : State Num) :
  HlsConstructor (initVideoTrackList st) = HlsConstructor st
  ∧ globalThis_Hls (initVideoTrackList st) = globalThis_Hls st
  ∧ hlsInstance (this (initVideoTrackList st)) = hlsInstance (this st).
Proof. unfold initVideoTrackList. by destruct (v_videoTracks (video st)). Qed.

Lemma initAudioTrackList_frame (st : State Num) :
  HlsConstructor (initAudioTrackList st) = HlsConstructor st
  ∧ globalThis_Hls (initAudioTrackList st) = globalThis_Hls st
  ∧ hlsInstance (this (initAudioTrackList st)) = hlsInstance (this st).
Proof. unfold initAudioTrackList. by destruct (v_audioTracks (video st)). Qed.

Lemma initHls_getter (st : State Num) :
  Hls_getter (initAudioTrackList (initVideoTrackList (detachHls st))) = Hls_getter st.
Proof.
  destruct (initAudioTrackList_frame (initVideoTrackList (detachHls st))) as (Ha1 & Ha2 & _).
  destruct (initVideoTrackList_frame (detachHls st)) as (Hv1 & Hv2 & _).
  destruct (detachHls_statics st) as (Hd1 & Hd2).
  apply Hls_getter_ext; congruence.
Qed.


(** *** Populating the lists on MANIFEST_LOADED *)

Lemma set_add_fresh (o : nat) (s : list nat) :
  (∀ x, x ∈ s → x < o) → JS.set_add o s = s ++ [o].
Proof.
  intros Hlt. unfold JS.set_add. rewrite decide_False; [done|].
  intros Hin. specialize (Hlt o Hin). lia.
Qed.

(** The [forEach] over the levels allocates one track per level, appends
    them to the bound list in order and records them in the provenance
    set. *)
Lemma forEach_add_level (h : Hls) (vl : nat) (lvls : list Level) :
  ∀ (idx : nat) (st : State Num),
    videoTrackList (this st) = Some vl →
    (∀ o, o ∈ createdVideoTracks (this st) → o < nextOid (heap st)) →
    let st' := JS.forEach_from (add_level h) lvls idx st in
    this st'
    = map_createdVideoTracks (λ c, c ++ seq (nextOid (heap st)) (length lvls)) (this st)
    ∧ video st' = video st
    ∧ vlists (heap st')
      = alter
          (tl_map_tracks
             (λ ts, ts ++ imap (λ i lv, new_VideoTrack (nextOid (heap st) + i) h lv (idx + i)) lvls))
          vl (vlists (heap st))
    ∧ alists (heap st') = alists (heap st)
    ∧ nextOid (heap st') = nextOid (heap st) + length lvls.
Proof.
  induction lvls as [|lv lvls IH]; intros idx st Hvl Hlt; cbn [JS.forEach_from].
  - cbv zeta. split_and!; [ | done | | done | simpl; lia ].
    + destruct (this st). unfold map_createdVideoTracks. simpl.
      by rewrite app_nil_r.
    + symmetry. apply alter_id. intros L _. apply tl_map_tracks_id.
      apply app_nil_r.
  - set (st1 := add_level h st lv idx).
    assert (H1 : this st1 = map_createdVideoTracks (λ c, c ++ [nextOid (heap st)]) (this st)
                 ∧ video st1 = video st
                 ∧ vlists (heap st1)
                   = alter (addTrack (new_VideoTrack (nextOid (heap st)) h lv idx)) vl (vlists (heap st))
                 ∧ alists (heap st1) = alists (heap st)
                 ∧ nextOid (heap st1) = S (nextOid (heap st))).
    { subst st1. unfold add_level. simpl. rewrite Hvl. simpl.
      split_and!; try done.
      unfold map_createdVideoTracks. by rewrite set_add_fresh. }
    destruct H1 as (Hthis1 & Hvideo1 & Hvl1 & Hal1 & Hoid1).
    destruct (IH (S idx) st1) as (Hthis & Hvideo & Hvls & Hals & Hoid).
    { by rewrite Hthis1. }
    { rewrite Hthis1, Hoid1. simpl. intros o [Ho| ->%list_elem_of_singleton]%elem_of_app;
        [specialize (Hlt o Ho)|]; lia. }
    cbv zeta in *. split_and!.
    + rewrite Hthis, Hthis1, Hoid1. unfold map_createdVideoTracks. simpl.
      by rewrite <- app_assoc.
    + by rewrite Hvideo.
    + rewrite Hvls, Hvl1, Hoid1, alter_alter_eq. apply alter_ext.
      intros L _. unfold addTrack, tl_map_tracks. simpl. f_equal.
      rewrite <- app_assoc. f_equal. simpl.
      rewrite !Nat.add_0_r. f_equal. apply imap_ext. intros i x _. simpl.
      f_equal; lia.
    + by rewrite Hals.
    + rewrite Hoid, Hoid1. simpl. lia.
Qed.

Lemma forEach_add_audio (h : Hls) (al : nat) (ts : list MediaPlaylist) :
  ∀ (idx : nat) (st : State Num),
    audioTrackList (this st) = Some al →
    (∀ o, o ∈ createdAudioTracks (this st) → o < nextOid (heap st)) →
    let st' := JS.forEach_from (add_audio h) ts idx st in
    this st'
    = map_createdAudioTracks (λ c, c ++ seq (nextOid (heap st)) (length ts)) (this st)
    ∧ video st' = video st
    ∧ alists (heap st')
      = alter
          (tl_map_tracks
             (λ l, l ++ imap (λ i t, new_AudioTrack (nextOid (heap st) + i) h t (idx + i)) ts))
          al (alists (heap st))
    ∧ vlists (heap st') = vlists (heap st)
    ∧ nextOid (heap st') = nextOid (heap st) + length ts.
Proof.
  induction ts as [|t ts IH]; intros idx st Hal Hlt; cbn [JS.forEach_from].
  - cbv zeta. split_and!; [ | done | | done | simpl; lia ].
    + destruct (this st). unfold map_createdAudioTracks. simpl.
      by rewrite app_nil_r.
    + symmetry. apply alter_id. intros L _. apply tl_map_tracks_id.
      apply app_nil_r.
  - set (st1 := add_audio h st t idx).
    assert (H1 : this st1 = map_createdAudioTracks (λ c, c ++ [nextOid (heap st)]) (this st)
                 ∧ video st1 = video st
                 ∧ alists (heap st1)
                   = alter (addTrack (new_AudioTrack (nextOid (heap st)) h t idx)) al (alists (heap st))
                 ∧ vlists (heap st1) = vlists (heap st)
                 ∧ nextOid (heap st1) = S (nextOid (heap st))).
    { subst st1. unfold add_audio. simpl. rewrite Hal. simpl.
      split_and!; try done.
      unfold map_createdAudioTracks. by rewrite set_add_fresh. }
    destruct H1 as (Hthis1 & Hvideo1 & Hal1 & Hvl1 & Hoid1).
    destruct (IH (S idx) st1) as (Hthis & Hvideo & Hals & Hvls & Hoid).
    { by rewrite Hthis1. }
    { rewrite Hthis1, Hoid1. simpl. intros o [Ho| ->%list_elem_of_singleton]%elem_of_app;
        [specialize (Hlt o Ho)|]; lia. }
    cbv zeta in *. split_and!.
    + rewrite Hthis, Hthis1, Hoid1. unfold map_createdAudioTracks. simpl.
      by rewrite <- app_assoc.
    + by rewrite Hvideo.
    + rewrite Hals, Hal1, Hoid1, alter_alter_eq. apply alter_ext.
      intros L _. unfold addTrack, tl_map_tracks. simpl. f_equal.
      rewrite <- app_assoc. f_equal. simpl.
      rewrite !Nat.add_0_r. f_equal. apply imap_ext. intros i x _. simpl.
      f_equal; lia.
    + by rewrite Hvls.
    + rewrite Hoid, Hoid1. simpl. lia.
Qed.

Lemma updateTrackLists_active (h : Hls) (st : State Num) (vl al : nat) :
  JS.truthy (hlsSrc (this st)) = true →
  videoTrackList (this st) = Some vl → audioTrackList (this st) = Some al →
  updateTrackLists h st
  = JS.forEach (add_audio h) (audioTracks h)
      (JS.forEach (add_level h) (levels h)
         (with_this (map_createdAudioTracks (λ _, []))
            (on_alist al (tl_map_tracks (filter (λ t, at_oid t ∉ createdAudioTracks (this st))))
               (with_this (map_createdVideoTracks (λ _, []))
                  (on_vlist vl (tl_map_tracks (filter (λ t, vt_oid t ∉ createdVideoTracks (this st))))
                     st))))).
Proof.
  intros Hsrc Hvl Hal. unfold updateTrackLists. rewrite Hsrc, Hvl, Hal.
  cbn [negb]. cbv zeta.
  rewrite (foldl_remove_video_track _ st vl Hvl).
  by erewrite foldl_remove_audio_track by done.
Qed.

Lemma filter_app_fresh {T} (key : T → nat) (n k : nat) (old new : list T) :
  (∀ t, t ∈ old → key t < n) →
  (∀ t, t ∈ new → key t ∈ seq n k) →
  filter (λ t, key t ∈ seq n k) (old ++ new) = new.
Proof.
  intros Hold Hnew. rewrite filter_app, filter_none, filter_all; [done|done|].
  intros t Ht [Hge _]%elem_of_seq. specialize (Hold t Ht). lia.
Qed.

Lemma new_video_tracks_in (h : Hls) (n : nat) (lvls : list Level) (t : VideoTrack) :
  t ∈ imap (λ i lv, new_VideoTrack (n + i) h lv i) lvls →
  vt_oid t ∈ seq n (length lvls).
Proof.
  intros (i & Hi)%list_elem_of_lookup_1.
  apply list_lookup_imap_Some in Hi as (lv & Hlv & ->). simpl.
  apply elem_of_seq. apply lookup_lt_Some in Hlv. lia.
Qed.

Lemma new_audio_tracks_in (h : Hls) (n : nat) (ts : list MediaPlaylist) (t : AudioTrack) :
  t ∈ imap (λ i x, new_AudioTrack (n + i) h x i) ts →
  at_oid t ∈ seq n (length ts).
Proof.
  intros (i & Hi)%list_elem_of_lookup_1.
  apply list_lookup_imap_Some in Hi as (x & Hx & ->). simpl.
  apply elem_of_seq. apply lookup_lt_Some in Hx. lia.
Qed.

(** C1 (as amended).  On MANIFEST_LOADED during a session, with both lists
    bound and holding tracks allocated earlier: afterwards the entries of
    each list recorded in its provenance set are exactly the tracks
    allocated by this call, one per level (audio track) of the engine, in
    the engine's order and carrying the rendition's identifier, so that
    they have no duplicate identifiers when the engine reports none; the
    entry at index [i] is selected (enabled) exactly when [i] is the
    engine's current index; no entry of the previous provenance set
    remains; and the entries that were not in the previous provenance set
    are kept as they were. *)
Theorem C1_manifest_loaded (h : Hls) (st : State Num)
    (vl al : nat) (VL : TrackList VideoTrack) (AL : TrackList AudioTrack) :
  JS.truthy (hlsSrc (this st)) = true →
  videoTrackList (this st) = Some vl → vlists (heap st) !! vl = Some VL →
  audioTrackList (this st) = Some al → alists (heap st) !! al = Some AL →
  (∀ t, t ∈ tl_tracks VL → vt_oid t < nextOid (heap st)) →
  (∀ t, t ∈ tl_tracks AL → at_oid t < nextOid (heap st)) →
  (∀ o, o ∈ createdVideoTracks (this st) → o < nextOid (heap st)) →
  (∀ o, o ∈ createdAudioTracks (this st) → o < nextOid (heap st)) →
  let st' := updateTrackLists h st in
  let n := nextOid (heap st) in
  ∃ VL' AL',
    vlists (heap st') !! vl = Some VL' ∧ alists (heap st') !! al = Some AL'
    ∧ own_video_tracks st' VL'
      = imap (λ i lv, new_VideoTrack (n + i) h lv i) (levels h)
    ∧ own_audio_tracks st' AL'
      = imap (λ i t, new_AudioTrack (n + length (levels h) + i) h t i) (audioTracks h)
    ∧ length (own_video_tracks st' VL') = length (levels h)
    ∧ length (own_audio_tracks st' AL') = length (audioTracks h)
    ∧ vt_id <$> own_video_tracks st' VL' = level_id <$> levels h
    ∧ at_id <$> own_audio_tracks st' AL' = mp_url <$> audioTracks h
    ∧ (NoDup (level_id <$> levels h) → NoDup (vt_id <$> own_video_tracks st' VL'))
    ∧ (NoDup (mp_url <$> audioTracks h) → NoDup (at_id <$> own_audio_tracks st' AL'))
    ∧ (∀ i t, own_video_tracks st' VL' !! i = Some t →
         vt_selected t = bool_decide (currentLevel h = Z.of_nat i))
    ∧ (∀ i t, own_audio_tracks st' AL' !! i = Some t →
         at_enabled t = bool_decide (audioTrack h = Z.of_nat i))
    ∧ (∀ t, t ∈ tl_tracks VL' → vt_oid t ∉ createdVideoTracks (this st))
    ∧ (∀ t, t ∈ tl_tracks AL' → at_oid t ∉ createdAudioTracks (this st))
    ∧ tl_tracks VL'
      = filter (λ t, vt_oid t ∉ createdVideoTracks (this st)) (tl_tracks VL)
        ++ own_video_tracks st' VL'
    ∧ tl_tracks AL'
      = filter (λ t, at_oid t ∉ createdAudioTracks (this st)) (tl_tracks AL)
        ++ own_audio_tracks st' AL'.
Proof.
  intros Hsrc Hvl HVL Hal HAL HwfV HwfA HcV HcA st' n.
  subst st'. rewrite (updateTrackLists_active h st vl al Hsrc Hvl Hal).
  set (st4 := with_this _ _).
  assert (H4 : videoTrackList (this st4) = Some vl ∧ audioTrackList (this st4) = Some al
               ∧ createdVideoTracks (this st4) = [] ∧ createdAudioTracks (this st4) = []
               ∧ nextOid (heap st4) = n
               ∧ vlists (heap st4)
                 = alter (tl_map_tracks (filter (λ t, vt_oid t ∉ createdVideoTracks (this st))))
                     vl (vlists (heap st))
               ∧ alists (heap st4)
                 = alter (tl_map_tracks (filter (λ t, at_oid t ∉ createdAudioTracks (this st))))
                     al (alists (heap st))).
  { subst st4. simpl. by rewrite Hvl, Hal. }
  destruct H4 as (Hvl4 & Hal4 & HcV4 & HcA4 & Hn4 & Hvls4 & Hals4).
  clearbody st4.
  unfold JS.forEach.
  destruct (forEach_add_level h vl (levels h) 0 st4 Hvl4)
    as (Hthis5 & _ & Hvls5 & Hals5 & Hn5).
  { rewrite HcV4. intros o Ho. by apply elem_of_nil in Ho. }
  set (st5 := JS.forEach_from (add_level h) (levels h) 0 st4) in *.
  clearbody st5.
  destruct (forEach_add_audio h al (audioTracks h) 0 st5)
    as (Hthis6 & _ & Hals6 & Hvls6 & _).
  { by rewrite Hthis5. }
  { rewrite Hthis5. simpl. rewrite HcA4. intros o Ho. by apply elem_of_nil in Ho. }
  set (st6 := JS.forEach_from (add_audio h) (audioTracks h) 0 st5) in *.
  clearbody st6.
  cbv zeta in *.
  assert (HcV6 : createdVideoTracks (this st6) = seq n (length (levels h))).
  { rewrite Hthis6, Hthis5. simpl. by rewrite HcV4, Hn4. }
  assert (HcA6 : createdAudioTracks (this st6)
                 = seq (n + length (levels h)) (length (audioTracks h))).
  { rewrite Hthis6, Hthis5. simpl. by rewrite HcA4, Hn5, Hn4. }
  set (newV := imap (λ i lv, new_VideoTrack (n + i) h lv i) (levels h)).
  set (newA := imap (λ i t, new_AudioTrack (n + length (levels h) + i) h t i) (audioTracks h)).
  set (keptV := filter (λ t, vt_oid t ∉ createdVideoTracks (this st)) (tl_tracks VL)).
  set (keptA := filter (λ t, at_oid t ∉ createdAudioTracks (this st)) (tl_tracks AL)).
  assert (HVL' : vlists (heap st6) !! vl
                 = Some {| tl_tracks := keptV ++ newV; tl_change := tl_change VL |}).
  { rewrite Hvls6, Hvls5, Hvls4, alter_alter_eq, lookup_alter_eq, HVL, Hn4. done. }
  assert (HAL' : alists (heap st6) !! al
                 = Some {| tl_tracks := keptA ++ newA; tl_change := tl_change AL |}).
  { rewrite Hals6, Hals5, Hals4, alter_alter_eq, lookup_alter_eq, HAL, Hn5, Hn4. done. }
  assert (HownV : own_video_tracks st6 {| tl_tracks := keptV ++ newV; tl_change := tl_change VL |} = newV).
  { unfold own_video_tracks. rewrite HcV6. simpl. apply filter_app_fresh.
    - intros t [_ Ht]%list_elem_of_filter. by apply HwfV.
    - apply new_video_tracks_in. }
  assert (HownA : own_audio_tracks st6 {| tl_tracks := keptA ++ newA; tl_change := tl_change AL |} = newA).
  { unfold own_audio_tracks. rewrite HcA6. simpl. apply filter_app_fresh.
    - intros t [_ Ht]%list_elem_of_filter. specialize (HwfA t Ht). fold n in HwfA. lia.
    - apply new_audio_tracks_in. }
  assert (HidV : vt_id <$> newV = level_id <$> levels h).
  { subst newV. rewrite fmap_imap, <- imap_const. by apply imap_ext. }
  assert (HidA : at_id <$> newA = mp_url <$> audioTracks h).
  { subst newA. rewrite fmap_imap, <- imap_const. by apply imap_ext. }
  eexists _, _. split; [exact HVL'|]. split; [exact HAL'|].
  rewrite HownV, HownA, HidV, HidA. cbn [tl_tracks].
  split_and!; try done.
  - subst newV. by rewrite length_imap.
  - subst newA. by rewrite length_imap.
  - intros i t Hi. subst newV.
    by apply list_lookup_imap_Some in Hi as (lv & _ & ->).
  - intros i t Hi. subst newA.
    by apply list_lookup_imap_Some in Hi as (x & _ & ->).
  - intros t [Ht|Ht]%elem_of_app.
    + by apply list_elem_of_filter in Ht as [? _].
    + intros Hold. apply new_video_tracks_in, elem_of_seq in Ht.
      specialize (HcV _ Hold). fold n in HcV. lia.
  - intros t [Ht|Ht]%elem_of_app.
    + by apply list_elem_of_filter in Ht as [? _].
    + intros Hold. apply new_audio_tracks_in, elem_of_seq in Ht.
      specialize (HcA _ Hold). fold n in HcA. lia.
Qed.

(** ** Further properties of the class *)

Variable resolveURL : string → string.

(** *** Handlers run twice *)

Lemma isCorrespondingTrack_mode (m : TextTrackMode) (t : TextTrack Num) (track : MediaPlaylist) :
  isCorrespondingTrack (tt_set_mode m t) track = isCorrespondingTrack t track.
Proof. done. Qed.

Lemma switch_mode_twice (track : MediaPlaylist) (t : TextTrack Num) :
  switch_mode track (switch_mode track t) = switch_mode track t.
Proof.
  unfold switch_mode at 2.
  destruct (isCorrespondingTrack t track) eqn:Hc; simpl;
    repeat case_bool_decide; simpl;
    unfold switch_mode; rewrite ?isCorrespondingTrack_mode, Hc; simpl;
    repeat case_bool_decide; simpl in *; try done; congruence.
Qed.

(** A repeated SUBTITLE_TRACK_SWITCH for the same rendition changes
    nothing more: the modes [updateTextTrack] leaves are stable. *)
Theorem updateTextTrack_idempotent (h : Hls) (st : State Num) :
  updateTextTrack h (updateTextTrack h st) = updateTextTrack h st.
Proof.
  unfold updateTextTrack.
  destruct (JS.index (subtitleTracks h) (subtitleTrack h)) as [track|]; [|done].
  unfold with_video, map_v_textTracks. simpl.
  rewrite <- list_fmap_compose.
  rewrite (list_fmap_ext (switch_mode track ∘ switch_mode track) (switch_mode track));
    [done|].
  intros i t _. apply switch_mode_twice.
Qed.

Lemma getVideoTrackById_select (id : option string) (o : nat) (VL : TrackList VideoTrack) :
  getVideoTrackById id (select_video o VL)
  = (λ t, vt_set_selected (bool_decide (vt_oid t = o)) t) <$> getVideoTrackById id VL.
Proof.
  unfold getVideoTrackById, select_video, tl_map_tracks. simpl.
  rewrite list_find_fmap.
  rewrite (list_find_ext _ (λ t, vt_id t = id)) by done.
  by destruct (list_find _ _) as [[i t]|].
Qed.

Lemma getAudioTrackById_enable (id : string) (o : nat) (AL : TrackList AudioTrack) :
  getAudioTrackById id (enable_audio o AL)
  = (λ t, if decide (at_oid t = o) then at_set_enabled true t else t)
      <$> getAudioTrackById id AL.
Proof.
  unfold getAudioTrackById, enable_audio, tl_map_tracks. simpl.
  rewrite list_find_fmap.
  rewrite (list_find_ext _ (λ t, at_id t = id)).
  - by destruct (list_find _ _) as [[i t]|].
  - intros t. simpl. by case_decide.
Qed.

(** The two outcomes of a switch handler: nothing, or the flag of the
    entry found for the active rendition. *)
Lemma updateVideoTrack_cases (h : Hls) (st : State Num) :
  updateVideoTrack h st = st
  ∨ ∃ vl level VL target,
      JS.truthy (hlsSrc (this st)) = true
      ∧ videoTrackList (this st) = Some vl
      ∧ JS.index (levels h) (currentLevel h) = Some level
      ∧ vlists (heap st) !! vl = Some VL
      ∧ getVideoTrackById (level_id level) VL = Some target
      ∧ vt_selected target = false
      ∧ updateVideoTrack h st = on_vlist vl (select_video (vt_oid target)) st.
Proof.
  unfold updateVideoTrack.
  destruct (JS.truthy (hlsSrc (this st))) eqn:Hsrc; [|by left]. simpl.
  destruct (videoTrackList (this st)) as [vl|] eqn:Hvl; [|by left].
  destruct (JS.index (levels h) (currentLevel h)) as [level|] eqn:Hlevel; [|by left].
  destruct (vlists (heap st) !! vl) as [VL|] eqn:HVL; [|by left]. simpl.
  destruct (getVideoTrackById (level_id level) VL) as [target|] eqn:Hget; [|by left].
  destruct (vt_selected target) eqn:Hsel; [by left|].
  right. by exists vl, level, VL, target.
Qed.

Lemma updateAudioTrack_cases (h : Hls) (st : State Num) :
  updateAudioTrack h st = st
  ∨ ∃ al current AL target,
      JS.truthy (hlsSrc (this st)) = true
      ∧ audioTrackList (this st) = Some al
      ∧ JS.index (audioTracks h) (audioTrack h) = Some current
      ∧ alists (heap st) !! al = Some AL
      ∧ getAudioTrackById (mp_url current) AL = Some target
      ∧ at_enabled target = false
      ∧ updateAudioTrack h st = on_alist al (enable_audio (at_oid target)) st.
Proof.
  unfold updateAudioTrack.
  destruct (JS.truthy (hlsSrc (this st))) eqn:Hsrc; [|by left]. simpl.
  destruct (audioTrackList (this st)) as [al|] eqn:Hal; [|by left].
  destruct (JS.index (audioTracks h) (audioTrack h)) as [current|] eqn:Hcur; [|by left].
  destruct (alists (heap st) !! al) as [AL|] eqn:HAL; [|by left]. simpl.
  destruct (getAudioTrackById (mp_url current) AL) as [target|] eqn:Hget; [|by left].
  destruct (at_enabled target) eqn:Hen; [by left|].
  right. by exists al, current, AL, target.
Qed.

(** A repeated LEVEL_SWITCHED or AUDIO_TRACK_SWITCHED for the same engine
    state changes nothing more. *)
Theorem update_track_idempotent (h : Hls) (st : State Num) :
  updateVideoTrack h (updateVideoTrack h st) = updateVideoTrack h st
  ∧ updateAudioTrack h (updateAudioTrack h st) = updateAudioTrack h st.
Proof.
  split.
  - destruct (updateVideoTrack_cases h st)
      as [Hid|(vl & level & VL & target & Hsrc & Hvl & Hlevel & HVL & Hget & Hsel & Heq)].
    { by rewrite !Hid. }
    rewrite Heq. unfold updateVideoTrack.
    cbn [this on_vlist with_heap heap map_vlists vlists].
    rewrite Hsrc, Hvl, Hlevel, lookup_alter_eq, HVL. simpl.
    rewrite getVideoTrackById_select, Hget. simpl.
    by rewrite bool_decide_eq_true_2.
  - destruct (updateAudioTrack_cases h st)
      as [Hid|(al & current & AL & target & Hsrc & Hal & Hcur & HAL & Hget & Hen & Heq)].
    { by rewrite !Hid. }
    rewrite Heq. unfold updateAudioTrack.
    cbn [this on_alist with_heap heap map_alists alists].
    rewrite Hsrc, Hal, Hcur, lookup_alter_eq, HAL. simpl.
    rewrite getAudioTrackById_enable, Hget. simpl.
    by rewrite decide_True.
Qed.

(** *** No feedback from the engine's own switches *)









(** *** The listener on [video.textTracks] *)

Lemma set_hlsInstance_same (st : State Num) (h : Hls) :
  hlsInstance (this st) = Some h → with_this (set_hlsInstance (Some h)) st = st.
Proof. destruct st as [[] ? ? ? ?]. simpl. by intros ->. Qed.

Lemma findIndex_from_ext {A} (p q : A → bool) (arr : list A) (k : Z) :
  (∀ x, p x = q x) → JS.findIndex_from p arr k = JS.findIndex_from q arr k.
Proof.
  intros Hpq. revert k. induction arr as [|x arr IH]; intros k; simpl; [done|].
  by rewrite Hpq, IH.
Qed.

Lemma findIndex_ext {A} (p q : A → bool) (arr : list A) :
  (∀ x, p x = q x) → JS.findIndex p arr = JS.findIndex q arr.
Proof. apply findIndex_from_ext. Qed.

Lemma subtitle_for_quiet (h : Hls) (t : TextTrack Num) :
  quiet_track h t → subtitle_for t h = h.
Proof.
  intros [Hdis|[Hnone|(k & Hk & Hact)]]; unfold subtitle_for.
  - by rewrite bool_decide_eq_false_2 by (intros Hn; by apply Hn).
  - case_bool_decide; [|done].
    rewrite (findIndex_ext _ (λ mp, bool_decide (isCorrespondingTrack t mp = true)))
      by (intros mp; by destruct (isCorrespondingTrack t mp)).
    rewrite (findIndex_none (λ mp, isCorrespondingTrack t mp = true)); [done|].
    intros mp Hmp. by rewrite (Hnone mp Hmp).
  - case_bool_decide; [|done].
    rewrite (findIndex_ext _ (λ mp, bool_decide (isCorrespondingTrack t mp = true)))
      by (intros mp; by destruct (isCorrespondingTrack t mp)).
    rewrite (findIndex_first (λ mp, isCorrespondingTrack t mp = true) _ k) by done.
    rewrite Hact, bool_decide_eq_true_2 by done. simpl.
    by rewrite andb_false_r.
Qed.

Lemma foldl_subtitle_for_quiet (h : Hls) (ts : list (TextTrack Num)) :
  Forall (quiet_track h) ts → foldl (λ h t, subtitle_for t h) h ts = h.
Proof.
  induction 1 as [|t ts Ht _ IH]; simpl; [done|].
  by rewrite subtitle_for_quiet.
Qed.

Lemma text_listener_quiet (st : State Num) (h : Hls) :
  hlsInstance (this st) = Some h →
  Forall (quiet_track h) (v_textTracks (video st)) →
  onTextTracksChange_body st = st.
Proof.
  intros Hh Hquiet. unfold onTextTracksChange_body. rewrite Hh.
  rewrite foldl_subtitle_for_quiet by done. by apply set_hlsInstance_same.
Qed.

Lemma subtitle_for_command (h : Hls) (t : TextTrack Num) :
  subtitle_for t h = h
  ∨ ∃ k mp, subtitle_for t h = hls_command (SetSubtitleTrack (Z.of_nat k)) h
      ∧ tt_mode t ≠ disabled
      ∧ subtitleTracks h !! k = Some mp
      ∧ isCorrespondingTrack t mp = true.
Proof.
  unfold subtitle_for. case_bool_decide as Hmode; [|by left].
  destruct (findIndex_cases (λ mp, isCorrespondingTrack t mp) (subtitleTracks h))
    as [[-> _]|(k & mp & -> & Hk & Hc & _)]; [by left|].
  destruct (_ && _); [|by left]. right. by exists k, mp.
Qed.

(** Whatever the text tracks are, the listener on [video.textTracks]
    leaves everything but the engine's command log alone, and what it
    appends are writes of [subtitleTrack] only, each with the index of a
    rendition of the engine's list that corresponds to a text track that is
    not disabled.  It appends nothing when every text track is quiet:
    disabled, or with no rendition corresponding to it, or with the active
    rendition as the first one corresponding to it. *)
Theorem onTextTracksChange_commands (st : State Num) (h : Hls) :
  hlsInstance (this st) = Some h →
  (∃ cmds,
    onTextTracksChange_body st
    = with_this (set_hlsInstance (Some (foldl (λ h c, hls_command c h) h cmds))) st
    ∧ Forall (λ c, ∃ k t mp,
                c = SetSubtitleTrack (Z.of_nat k)
                ∧ t ∈ v_textTracks (video st)
                ∧ tt_mode t ≠ disabled
                ∧ subtitleTracks h !! k = Some mp
                ∧ isCorrespondingTrack t mp = true) cmds)
  ∧ (Forall (quiet_track h) (v_textTracks (video st)) →
     onTextTracksChange_body st = st).
Proof.
  intros Hh. split; [|by apply text_listener_quiet].
  unfold onTextTracksChange_body. rewrite Hh.
  assert (Hgen : ∀ (ts : list (TextTrack Num)) (h0 : Hls),
            subtitleTracks h0 = subtitleTracks h →
            ∃ cmds,
              foldl (λ h t, subtitle_for t h) h0 ts = foldl (λ h c, hls_command c h) h0 cmds
              ∧ Forall (λ c, ∃ k t mp,
                          c = SetSubtitleTrack (Z.of_nat k) ∧ t ∈ ts
                          ∧ tt_mode t ≠ disabled
                          ∧ subtitleTracks h !! k = Some mp
                          ∧ isCorrespondingTrack t mp = true) cmds).
  { induction ts as [|t ts IH]; intros h0 Hsub; simpl.
    - by exists [].
    - destruct (subtitle_for_command h0 t) as [->|(k & mp & -> & Hmode & Hk & Hc)].
      + destruct (IH h0 Hsub) as (cmds & Heq & Hall). exists cmds. split; [done|].
        eapply Forall_impl; [exact Hall|].
        intros c (k & t' & mp & ? & ? & ? & ? & ?).
        exists k, t', mp. split_and!; try done. by right.
      + destruct (IH (hls_command (SetSubtitleTrack (Z.of_nat k)) h0) Hsub)
          as (cmds & Heq & Hall).
        exists (SetSubtitleTrack (Z.of_nat k) :: cmds). split; [done|].
        constructor.
        * exists k, t, mp. rewrite <- Hsub. split_and!; try done. by left.
        * eapply Forall_impl; [exact Hall|].
          intros c (k' & t' & mp' & ? & ? & ? & ? & ?).
          exists k', t', mp'. split_and!; try done. by right. }
  destruct (Hgen (v_textTracks (video st)) h eq_refl) as (cmds & Heq & Hall).
  exists cmds. by rewrite Heq.
Qed.

(** After the engine's SUBTITLE_TRACK_SWITCH has been applied to the text
    tracks, the change notification that follows issues no command back,
    provided no earlier rendition of the engine's list corresponds to a
    text track of the active rendition. *)
Theorem no_feedback_after_subtitle_switch (h : Hls) (st : State Num) (track : MediaPlaylist) :
  hlsInstance (this st) = Some h →
  JS.index (subtitleTracks h) (subtitleTrack h) = Some track →
  (∀ t j mp, t ∈ v_textTracks (video st) → isCorrespondingTrack t track = true →
             (Z.of_nat j < subtitleTrack h)%Z → subtitleTracks h !! j = Some mp →
             isCorrespondingTrack t mp = false) →
  onTextTracksChange_body (updateTextTrack h st) = updateTextTrack h st.
Proof.
  intros Hh Htrack Hfirst.
  apply (text_listener_quiet _ h).
  { unfold updateTextTrack. by rewrite Htrack. }
  unfold updateTextTrack. rewrite Htrack. simpl.
  apply Forall_fmap, Forall_forall. intros t Ht. simpl.
  apply index_inv in Htrack as [Hge Hk].
  destruct (isCorrespondingTrack t track) eqn:Hc.
  - right. right. exists (Z.to_nat (subtitleTrack h)). split; [|lia].
    split.
    + exists track. split; [done|].
      rewrite (switch_mode_rest track t). by rewrite isCorrespondingTrack_mode.
    + intros j mp Hj Hmp. rewrite (switch_mode_rest track t), isCorrespondingTrack_mode.
      rewrite (Hfirst t j mp Ht Hc); [done| lia | done].
  - left. by rewrite switch_mode_mode, Hc.
Qed.

(** *** Placeholder tracks *)

Lemma appendChild_track_block (e : nat) (t : TextTrack Num) (pre ts : list (TextTrack Num)) :
  appendChild_track (e + length pre) t (take e ts ++ pre ++ drop e ts)
  = take e ts ++ (pre ++ [t]) ++ drop e ts.
Proof.
  unfold appendChild_track.
  destruct (decide (e ≤ length ts)) as [Hle|Hgt].
  - rewrite !app_assoc.
    assert (Hlen : length (take e ts ++ pre) = e + length pre).
    { rewrite length_app, length_take. lia. }
    rewrite <- Hlen, take_app_length, drop_app_length.
    by rewrite <- !app_assoc.
  - rewrite (drop_ge ts e), !app_nil_r by lia.
    rewrite take_ge, drop_ge.
    + by rewrite <- app_assoc.
    + rewrite length_app, length_take. lia.
    + rewrite length_app, length_take. lia.
Qed.

Lemma initNativeTextTrack_from (e : nat) (tracks : list NonNativeTextTrack) :
  ∀ (pre ts : list (TextTrack Num)) (st : State Num),
    v_textTracks (video st) = take e ts ++ pre ++ drop e ts →
    JS.forEach_from
      (λ st t idx,
         with_video (map_v_textTracks (appendChild_track (e + idx) (placeholder_of t))) st)
      tracks (length pre) st
    = with_video
        (map_v_textTracks
           (λ _, take e ts ++ (pre ++ (placeholder_of <$> tracks)) ++ drop e ts))
        st.
Proof.
  induction tracks as [|t tracks IH]; intros pre ts st Hst; simpl.
  - rewrite app_nil_r, <- Hst. by destruct st as [? [] ? ? ?].
  - replace (S (length pre)) with (length (pre ++ [placeholder_of t]))
      by (rewrite length_app; simpl; lia).
    rewrite (IH (pre ++ [placeholder_of t]) ts).
    + unfold with_video, map_v_textTracks. simpl. by rewrite <- (app_assoc pre).
    + simpl. rewrite Hst. apply appendChild_track_block.
Qed.

Lemma initNativeTextTrack_closed (elems : nat) (tracks : list NonNativeTextTrack)
    (st : State Num) :
  initNativeTextTrack elems tracks st
  = with_video
      (map_v_textTracks
         (λ ts, take elems ts ++ (placeholder_of <$> tracks) ++ drop elems ts))
      st.
Proof.
  unfold initNativeTextTrack, JS.forEach.
  change 0 with (length (@nil (TextTrack Num))).
  rewrite (initNativeTextTrack_from elems tracks [] (v_textTracks (video st)) st).
  - done.
  - simpl. by rewrite take_drop.
Qed.

(** NON_NATIVE_TEXT_TRACKS_FOUND adds one placeholder per track found, in
    the order found and without looking for duplicates, as one block after
    the text tracks of the [<track>] children there were; the other text
    tracks keep their order, and nothing else changes. *)
Theorem placeholders_found (elems : nat) (tracks : list NonNativeTextTrack)
    (st : State Num) :
  initNativeTextTrack elems tracks st
  = with_video
      (map_v_textTracks
         (λ ts, take elems ts ++ (placeholder_of <$> tracks) ++ drop elems ts))
      st
  ∧ length (v_textTracks (video (initNativeTextTrack elems tracks st)))
    = length (v_textTracks (video st)) + length tracks
  ∧ (elems ≤ length (v_textTracks (video st)) →
     ∀ i nt, tracks !! i = Some nt →
       v_textTracks (video (initNativeTextTrack elems tracks st)) !! (elems + i)
       = Some (placeholder_of nt)).
Proof.
  rewrite initNativeTextTrack_closed. split; [done|].
  cbn [video with_video v_textTracks map_v_textTracks]. split.
  - rewrite !length_app, length_fmap, length_take, length_drop. lia.
  - intros Hle i nt Hi.
    rewrite lookup_app_r by (rewrite length_take; lia).
    rewrite length_take, Nat.min_l by done.
    replace (elems + i - elems) with i by lia.
    rewrite lookup_app_l by (rewrite length_fmap; by eapply lookup_lt_Some).
    by rewrite list_lookup_fmap, Hi.
Qed.

(** What NON_NATIVE_TEXT_TRACKS_FOUND adds, teardown removes: after
    [detach] the text tracks are the ones a [detach] without the event
    would have left, in the same order. *)
Theorem detach_removes_placeholders (elems : nat) (tracks : list NonNativeTextTrack)
    (st : State Num) :
  v_textTracks (video (detach (initNativeTextTrack elems tracks st)))
  = v_textTracks (video (detach st)).
Proof.
  unfold detach. rewrite initNativeTextTrack_closed, !detachHls_video.
  cbn [v_textTracks video with_video map_v_textTracks].
  rewrite !filter_app.
  rewrite (filter_none _ (placeholder_of <$> tracks)).
  - simpl. rewrite <- filter_app. by rewrite take_drop.
  - intros t (nt & -> & _)%list_elem_of_fmap. done.
Qed.

(** The placeholder made for a rendition corresponds to that rendition
    whenever the kind found is a text-track kind equal to the rendition's
    type in lower case and the label found is the rendition's name; it is
    created hidden or showing, never disabled, and a switch to its
    rendition leaves its mode as it is. *)
Theorem placeholder_corresponds (nt : NonNativeTextTrack) (mp : MediaPlaylist) :
  nn_subtitleTrack nt = Some mp →
  track_kind (nn_kind nt) = JS.toLowerCase (mp_type mp) →
  nn_label nt = mp_name mp →
  isCorrespondingTrack (placeholder_of nt : TextTrack Num) mp = true
  ∧ tt_mode (placeholder_of nt : TextTrack Num) ≠ disabled
  ∧ switch_mode mp (placeholder_of nt : TextTrack Num) = placeholder_of nt.
Proof.
  intros Hsub Hkind Hlabel.
  assert (Hc : isCorrespondingTrack (placeholder_of nt : TextTrack Num) mp = true).
  { unfold isCorrespondingTrack, placeholder_of. simpl.
    rewrite Hsub, Hkind, Hlabel. simpl.
    rewrite !bool_decide_eq_true_2 by done. simpl.
    destruct (mp_lang mp) as [[|c lang]|]; simpl; try done.
    by rewrite bool_decide_eq_true_2. }
  assert (Hm : tt_mode (placeholder_of nt : TextTrack Num) ≠ disabled).
  { simpl. by destruct (nn_default nt). }
  split_and!; [done|done|].
  unfold switch_mode. rewrite Hc. simpl.
  rewrite bool_decide_eq_false_2; [done|]. by destruct (nn_default nt).
Qed.

(** *** The invariants of a ponyfill in use *)

Lemma tl_ok_mono {T} (oid_of : T → nat) (n n' k k' : nat) (L : TrackList T) :
  n ≤ n' → k ≤ k' → tl_ok oid_of n k L → tl_ok oid_of n' k' L.
Proof.
  intros Hn Hk (Ho & Hnd & Hf). split_and!; [|done|].
  - intros t Ht. specialize (Ho t Ht). lia.
  - intros f Hin. specialize (Hf f Hin). lia.
Qed.

Lemma tl_ok_shrink {T} (oid_of : T → nat) (n k : nat) (L L' : TrackList T) :
  tl_tracks L' `sublist_of` tl_tracks L →
  (∀ f, f ∈ tl_change L' → f ∈ tl_change L) →
  tl_ok oid_of n k L → tl_ok oid_of n k L'.
Proof.
  intros Hsub Hch (Ho & Hnd & Hf). split_and!.
  - intros t Ht. apply Ho. by eapply elem_of_sublist.
  - apply (sublist_NoDup _ (oid_of <$> tl_tracks L)); [done|by apply fmap_sublist].
  - intros f Hin. by apply Hf, Hch.
Qed.

Lemma alter_ok {V} (P : V → Prop) (f : V → V) (i : nat) (m : gmap nat V) :
  (∀ l L, m !! l = Some L → P L) →
  (∀ L, m !! i = Some L → P (f L)) →
  ∀ l L, alter f i m !! l = Some L → P L.
Proof.
  intros Hm Hf l L. rewrite lookup_alter. case_decide as Heq.
  - subst l. intros (L0 & HL0 & ->)%fmap_Some. by apply Hf.
  - apply Hm.
Qed.

Lemma alter_is_Some {V} (f : V → V) (i l : nat) (m : gmap nat V) :
  is_Some (alter f i m !! l) ↔ is_Some (m !! l).
Proof.
  rewrite lookup_alter. case_decide; [subst; by rewrite fmap_is_Some|done].
Qed.

Lemma removeEventListener_subset fn ls f :
  f ∈ JS.removeEventListener fn ls → f ∈ ls.
Proof. unfold JS.removeEventListener. by intros [_ ?]%list_elem_of_filter. Qed.

(** The invariant only looks at the list references, the provenance sets,
    the listeners of the text tracks and the heap. *)
Lemma heap_wf_frame (st st' : State Num) :
  videoTrackList (this st') = videoTrackList (this st) →
  audioTrackList (this st') = audioTrackList (this st) →
  createdVideoTracks (this st') = createdVideoTracks (this st) →
  createdAudioTracks (this st') = createdAudioTracks (this st) →
  v_videoTracks (video st') = v_videoTracks (video st) →
  v_audioTracks (video st') = v_audioTracks (video st) →
  v_textTracks_change (video st') = v_textTracks_change (video st) →
  heap st' = heap st →
  heap_wf st → heap_wf st'.
Proof.
  intros H1 H2 H3 H4 H5 H6 H7 H8 [].
  split; rewrite ?H1, ?H2, ?H3, ?H4, ?H5, ?H6, ?H7, ?H8; done.
Qed.

Lemma session_wf_frame (st st' : State Num) :
  hlsInstance (this st') = hlsInstance (this st) →
  hlsSrc (this st') = hlsSrc (this st) →
  videoTrackList (this st') = videoTrackList (this st) →
  audioTrackList (this st') = audioTrackList (this st) →
  v_elem (video st') = v_elem (video st) →
  session_wf st → session_wf st'.
Proof.
  intros H1 H2 H3 H4 H5 [].
  split; rewrite ?H1, ?H2, ?H3, ?H4, ?H5; done.
Qed.

Lemma detachHls_heap_wf (st : State Num) : heap_wf st → heap_wf (detachHls st).
Proof.
  intros [].
  split; rewrite ?detachHls_this, ?detachHls_heap, ?detachHls_video;
    cbn [vlists alists nextOid nextFn videoTrackList audioTrackList
         createdVideoTracks createdAudioTracks v_videoTracks v_audioTracks
         v_textTracks_change].
  - destruct (videoTrackList (this st)) as [vl|]; [|done].
    apply alter_ok; [done|]. intros L HL.
    eapply tl_ok_shrink; [| |by eapply wf_vlists0]; simpl.
    + apply sublist_filter.
    + destruct (onVideoTracksChangeBound (this st)); [|done].
      intros f. apply removeEventListener_subset.
  - destruct (audioTrackList (this st)) as [al|]; [|done].
    apply alter_ok; [done|]. intros L HL.
    eapply tl_ok_shrink; [| |by eapply wf_alists0]; simpl.
    + apply sublist_filter.
    + destruct (onAudioTracksChangeBound (this st)); [|done].
      intros f. apply removeEventListener_subset.
  - intros l Hl. destruct (videoTrackList (this st)) as [vl|]; [|done].
    apply alter_is_Some. by apply wf_vbound0.
  - intros l Hl. destruct (audioTrackList (this st)) as [al|]; [|done].
    apply alter_is_Some. by apply wf_abound0.
  - intros l Hl. destruct (videoTrackList (this st)) as [vl|]; [|by apply wf_vslot0].
    apply alter_is_Some. by apply wf_vslot0.
  - intros l Hl. destruct (audioTrackList (this st)) as [al|]; [|by apply wf_aslot0].
    apply alter_is_Some. by apply wf_aslot0.
  - destruct (videoTrackList (this st)); [|done]. intros o Ho. by apply elem_of_nil in Ho.
  - destruct (audioTrackList (this st)); [|done]. intros o Ho. by apply elem_of_nil in Ho.
  - destruct (videoTrackList (this st)); [done|]. by apply wf_vunbound0.
  - destruct (audioTrackList (this st)); [done|]. by apply wf_aunbound0.
  - intros f Hf. apply wf_tfns0.
    destruct (hlsInstance (this st)), (onTextTracksChange (this st));
      try done. by eapply removeEventListener_subset.
Qed.

Lemma detachHls_session_wf (st : State Num) : session_wf (detachHls st).
Proof. split; rewrite detachHls_this; simpl; try done. Qed.

Lemma addEventListener_elem fn ls f :
  f ∈ JS.addEventListener fn ls → f ∈ ls ∨ f = fn.
Proof.
  unfold JS.addEventListener. case_decide; [by left|].
  intros [?| ->%list_elem_of_singleton]%elem_of_app; [by left|by right].
Qed.

Lemma tl_ok_listen {T} (oid_of : T → nat) (n k : nat) (L : TrackList T) :
  tl_ok oid_of n k L → tl_ok oid_of n (S k) (tl_map_change (JS.addEventListener k) L).
Proof.
  intros (Ho & Hnd & Hf). split_and!; [done|done|]. simpl.
  intros f [Hin| ->]%addEventListener_elem; [specialize (Hf f Hin)|]; lia.
Qed.

Lemma tl_ok_new {T} (oid_of : T → nat) (n k : nat) : tl_ok oid_of n k (@tl_new T).
Proof.
  split_and!; simpl; [|constructor|]; intros x Hx; by apply elem_of_nil in Hx.
Qed.

Lemma initVideoTrackList_heap_wf (st : State Num) :
  heap_wf st → heap_wf (initVideoTrackList st).
Proof.
  intros Hwf. pose proof Hwf as [].
  assert (Hmono : ∀ l L, alists (heap st) !! l = Some L →
            tl_ok at_oid (nextOid (heap st)) (S (nextFn (heap st))) L).
  { intros l L HL. eapply tl_ok_mono; [| |by eapply wf_alists0]; lia. }
  assert (Hmono' : ∀ l L, vlists (heap st) !! l = Some L →
            tl_ok vt_oid (nextOid (heap st)) (S (nextFn (heap st))) L).
  { intros l L HL. eapply tl_ok_mono; [| |by eapply wf_vlists0]; lia. }
  assert (Ht : ∀ f, f ∈ v_textTracks_change (video st) → f < S (nextFn (heap st))).
  { intros f Hf. specialize (wf_tfns0 f Hf). lia. }
  assert (Hcreate : heap_wf
            (on_vlist (fresh (dom (vlists (heap st))))
               (tl_map_change (JS.addEventListener (nextFn (heap st))))
               (with_this (set_onVideoTracksChangeBound (Some (nextFn (heap st))))
                  (with_heap bump_nextFn
                     (with_video (set_v_videoTracks (JVideoTrackList (fresh (dom (vlists (heap st))))))
                        (with_this (set_videoTrackList (Some (fresh (dom (vlists (heap st))))))
                           (with_heap (map_vlists (insert (fresh (dom (vlists (heap st)))) tl_new)) st))))))).
  { split; simpl.
    - apply alter_ok.
      + intros l' L [[_ <-]|[_ HL]]%lookup_insert_Some; [apply tl_ok_new | by eapply Hmono'].
      + intros L HL. rewrite lookup_insert_eq in HL. injection HL as <-.
        apply tl_ok_listen, tl_ok_new.
    - exact Hmono.
    - intros l' [= <-]. apply alter_is_Some. by rewrite lookup_insert_eq.
    - done.
    - intros l' [= <-]. apply alter_is_Some. by rewrite lookup_insert_eq.
    - done.
    - done.
    - done.
    - done.
    - done.
    - exact Ht. }
  unfold initVideoTrackList.
  destruct (v_videoTracks (video st)) as [|l| |] eqn:Hslot; try exact Hcreate.
  simpl. split; simpl.
  - apply alter_ok; [done|]. intros L HL. apply tl_ok_listen. by eapply wf_vlists0.
  - exact Hmono.
  - intros l' [= <-]. apply alter_is_Some. by apply wf_vslot0.
  - done.
  - intros l' Hl'. apply alter_is_Some. apply (wf_vslot st Hwf). done.
  - done.
  - done.
  - done.
  - done.
  - done.
  - exact Ht.
Qed.

Lemma initAudioTrackList_heap_wf (st : State Num) :
  heap_wf st → heap_wf (initAudioTrackList st).
Proof.
  intros Hwf. pose proof Hwf as [].
  assert (Hmono : ∀ l L, alists (heap st) !! l = Some L →
            tl_ok at_oid (nextOid (heap st)) (S (nextFn (heap st))) L).
  { intros l L HL. eapply tl_ok_mono; [| |by eapply wf_alists0]; lia. }
  assert (Hmono' : ∀ l L, vlists (heap st) !! l = Some L →
            tl_ok vt_oid (nextOid (heap st)) (S (nextFn (heap st))) L).
  { intros l L HL. eapply tl_ok_mono; [| |by eapply wf_vlists0]; lia. }
  assert (Ht : ∀ f, f ∈ v_textTracks_change (video st) → f < S (nextFn (heap st))).
  { intros f Hf. specialize (wf_tfns0 f Hf). lia. }
  assert (Hcreate : heap_wf
            (on_alist (fresh (dom (alists (heap st))))
               (tl_map_change (JS.addEventListener (nextFn (heap st))))
               (with_this (set_onAudioTracksChangeBound (Some (nextFn (heap st))))
                  (with_heap bump_nextFn
                     (with_video (set_v_audioTracks (JAudioTrackList (fresh (dom (alists (heap st))))))
                        (with_this (set_audioTrackList (Some (fresh (dom (alists (heap st))))))
                           (with_heap (map_alists (insert (fresh (dom (alists (heap st)))) tl_new)) st))))))).
  { split; simpl.
    - exact Hmono'.
    - apply alter_ok.
      + intros l' L [[_ <-]|[_ HL]]%lookup_insert_Some; [apply tl_ok_new | by eapply Hmono].
      + intros L HL. rewrite lookup_insert_eq in HL. injection HL as <-.
        apply tl_ok_listen, tl_ok_new.
    - done.
    - intros l' [= <-]. apply alter_is_Some. by rewrite lookup_insert_eq.
    - done.
    - intros l' [= <-]. apply alter_is_Some. by rewrite lookup_insert_eq.
    - done.
    - done.
    - done.
    - done.
    - exact Ht. }
  unfold initAudioTrackList.
  destruct (v_audioTracks (video st)) as [| |l|] eqn:Hslot; try exact Hcreate.
  simpl. split; simpl.
  - exact Hmono'.
  - apply alter_ok; [done|]. intros L HL. apply tl_ok_listen. by eapply wf_alists0.
  - done.
  - intros l' [= <-]. apply alter_is_Some. by apply wf_aslot0.
  - done.
  - intros l' Hl'. apply alter_is_Some. apply (wf_aslot st Hwf). done.
  - done.
  - done.
  - done.
  - done.
  - exact Ht.
Qed.

Lemma initVideoTrackList_this (st : State Num) :
  is_Some (videoTrackList (this (initVideoTrackList st)))
  ∧ audioTrackList (this (initVideoTrackList st)) = audioTrackList (this st)
  ∧ hlsSrc (this (initVideoTrackList st)) = hlsSrc (this st)
  ∧ createdVideoTracks (this (initVideoTrackList st)) = createdVideoTracks (this st)
  ∧ createdAudioTracks (this (initVideoTrackList st)) = createdAudioTracks (this st)
  ∧ v_elem (video (initVideoTrackList st)) = v_elem (video st)
  ∧ v_src (video (initVideoTrackList st)) = v_src (video st).
Proof. unfold initVideoTrackList. by destruct (v_videoTracks (video st)). Qed.

Lemma initAudioTrackList_this (st : State Num) :
  is_Some (audioTrackList (this (initAudioTrackList st)))
  ∧ videoTrackList (this (initAudioTrackList st)) = videoTrackList (this st)
  ∧ hlsSrc (this (initAudioTrackList st)) = hlsSrc (this st)
  ∧ createdVideoTracks (this (initAudioTrackList st)) = createdVideoTracks (this st)
  ∧ createdAudioTracks (this (initAudioTrackList st)) = createdAudioTracks (this st)
  ∧ v_elem (video (initAudioTrackList st)) = v_elem (video st)
  ∧ v_src (video (initAudioTrackList st)) = v_src (video st).
Proof. unfold initAudioTrackList. by destruct (v_audioTracks (video st)). Qed.

(** The part of [initHls] after the lists are bound, as one update of the
    state. *)
Lemma initHls_unfold (src : string) (st : State Num) :
  let st2 := initAudioTrackList (initVideoTrackList (detachHls st)) in
  match Hls_getter st with
  | Thrown msg => initHls src st = (st2, Thrown msg)
  | Return _ =>
      ∃ h, media h = Some (v_elem (video st2))
        ∧ initHls src st
          = (with_this (set_hlsSrc (Some src))
               (with_this (set_hlsInstance (Some h))
                  (with_this (set_onTextTracksChange (Some (nextFn (heap st2))))
                     (with_video (map_v_textTracks_change (JS.addEventListener (nextFn (heap st2))))
                        (with_heap bump_nextFn
                           (with_this (set_seekableTimeRanges (Some SeekableTimeRanges_new)) st2))))),
             Return ())
  end.
Proof.
  cbv zeta. unfold initHls. rewrite initHls_getter.
  destruct (Hls_getter st); [|done].
  set (st2 := initAudioTrackList _). clearbody st2. destruct st2.
  eexists. split; [|reflexivity]. reflexivity.
Qed.

Lemma initHls_heap_wf (src : string) (st : State Num) :
  heap_wf st → heap_wf (fst (initHls src st)).
Proof.
  intros Hwf.
  assert (Hwf2 : heap_wf (initAudioTrackList (initVideoTrackList (detachHls st)))).
  { by apply initAudioTrackList_heap_wf, initVideoTrackList_heap_wf, detachHls_heap_wf. }
  pose proof (initHls_unfold src st) as Hinit. cbv zeta in Hinit.
  destruct (Hls_getter st); [|by rewrite Hinit].
  destruct Hinit as (h & _ & ->). cbn [fst].
  revert Hwf2. generalize (initAudioTrackList (initVideoTrackList (detachHls st))).
  intros st2 []. split; simpl; try done.
  - intros l L HL. eapply tl_ok_mono; [| |by eapply wf_vlists0]; lia.
  - intros l L HL. eapply tl_ok_mono; [| |by eapply wf_alists0]; lia.
  - intros f [Hin| ->]%addEventListener_elem; [specialize (wf_tfns0 f Hin)|]; lia.
Qed.

Lemma initHls_session_wf (src : string) (st : State Num) :
  JS.truthy_str src = true → session_wf (fst (initHls src st)).
Proof.
  intros Hsrc.
  pose proof (initHls_unfold src st) as Hinit. cbv zeta in Hinit.
  assert (Hfacts :
    is_Some (videoTrackList (this (initAudioTrackList (initVideoTrackList (detachHls st)))))
    ∧ is_Some (audioTrackList (this (initAudioTrackList (initVideoTrackList (detachHls st)))))
    ∧ hlsSrc (this (initAudioTrackList (initVideoTrackList (detachHls st)))) = None
    ∧ hlsInstance (this (initAudioTrackList (initVideoTrackList (detachHls st)))) = None).
  { destruct (initAudioTrackList_this (initVideoTrackList (detachHls st)))
      as (HA & HV & HS & _).
    destruct (initVideoTrackList_this (detachHls st)) as (HV' & _ & HS' & _).
    destruct (initAudioTrackList_frame (initVideoTrackList (detachHls st))) as (_ & _ & HI).
    destruct (initVideoTrackList_frame (detachHls st)) as (_ & _ & HI').
    rewrite HV, HS, HS', HI, HI', detachHls_this. done. }
  revert Hinit Hfacts.
  generalize (initAudioTrackList (initVideoTrackList (detachHls st))).
  intros st2 Hinit (HV & HA & HS & HI).
  destruct (Hls_getter st).
  - destruct Hinit as (h & Hmedia & ->). cbn [fst].
    destruct st2 as [t v hp c g]. destruct t.
    cbn in HV, HA, HS, HI, Hmedia. subst.
    split; cbn.
    + intros ? [= <-]. by split.
    + by intros ? [= <-].
    + done.
  - rewrite Hinit. cbn [fst]. split.
    + rewrite HS. done.
    + rewrite HI. done.
    + rewrite HI. by intros [].
Qed.

Lemma setSrc_heap_wf (src : string) (st : State Num) :
  heap_wf st → heap_wf (fst (setSrc isHlsSource getUrlProtocol src st)).
Proof.
  intros Hwf. unfold setSrc.
  destruct (negb (JS.truthy_str src)).
  { cbn [fst]. by apply (heap_wf_frame (detachHls st)), detachHls_heap_wf. }
  destruct (isHlsSource src); [by apply initHls_heap_wf|].
  cbn [fst]. destruct (_ && _).
  - by apply (heap_wf_frame (detachHls st)), detachHls_heap_wf.
  - by apply (heap_wf_frame st).
Qed.

Lemma setSrc_session_wf (src : string) (st : State Num) :
  session_wf st → session_wf (fst (setSrc isHlsSource getUrlProtocol src st)).
Proof.
  intros Hwf. unfold setSrc.
  destruct (JS.truthy_str src) eqn:Hsrc; simpl.
  2:{ by apply (session_wf_frame (detachHls st)), detachHls_session_wf. }
  destruct (isHlsSource src); [by apply initHls_session_wf|].
  cbn [fst]. destruct (_ && _).
  - pose proof (detachHls_session_wf st) as []. split; simpl; try done.
  - destruct Hwf. split; simpl; try done.
Qed.

Lemma forEach_from_preserve {A B} (proj : State Num → B)
    (f : State Num → A → nat → State Num) (arr : list A) :
  (∀ s x i, proj (f s x i) = proj s) →
  ∀ idx st, proj (JS.forEach_from f arr idx st) = proj st.
Proof.
  intros Hf. induction arr as [|x arr IH]; intros idx st; simpl; [done|].
  by rewrite IH, Hf.
Qed.

Lemma add_level_rest (h : Hls) (s : State Num) (lv : Level) (i : nat) :
  (nextFn (heap (add_level h s lv i)), HlsConstructor (add_level h s lv i),
   globalThis_Hls (add_level h s lv i))
  = (nextFn (heap s), HlsConstructor s, globalThis_Hls s).
Proof. unfold add_level. simpl. by destruct (videoTrackList (this s)). Qed.

Lemma add_audio_rest (h : Hls) (s : State Num) (t : MediaPlaylist) (i : nat) :
  (nextFn (heap (add_audio h s t i)), HlsConstructor (add_audio h s t i),
   globalThis_Hls (add_audio h s t i))
  = (nextFn (heap s), HlsConstructor s, globalThis_Hls s).
Proof. unfold add_audio. simpl. by destruct (audioTrackList (this s)). Qed.

(** The state after MANIFEST_LOADED, when the guards of [updateTrackLists]
    pass. *)
Lemma updateTrackLists_result (h : Hls) (st : State Num) (vl al : nat) :
  JS.truthy (hlsSrc (this st)) = true →
  videoTrackList (this st) = Some vl → audioTrackList (this st) = Some al →
  let n := nextOid (heap st) in
  let st' := updateTrackLists h st in
  this st'
  = map_createdAudioTracks (λ _, seq (n + length (levels h)) (length (audioTracks h)))
      (map_createdVideoTracks (λ _, seq n (length (levels h))) (this st))
  ∧ video st' = video st
  ∧ vlists (heap st')
    = alter
        (tl_map_tracks
           (λ ts, filter (λ t, vt_oid t ∉ createdVideoTracks (this st)) ts
                  ++ imap (λ i lv, new_VideoTrack (n + i) h lv i) (levels h)))
        vl (vlists (heap st))
  ∧ alists (heap st')
    = alter
        (tl_map_tracks
           (λ ts, filter (λ t, at_oid t ∉ createdAudioTracks (this st)) ts
                  ++ imap (λ i t, new_AudioTrack (n + length (levels h) + i) h t i)
                       (audioTracks h)))
        al (alists (heap st))
  ∧ nextOid (heap st') = n + length (levels h) + length (audioTracks h)
  ∧ nextFn (heap st') = nextFn (heap st)
  ∧ HlsConstructor st' = HlsConstructor st
  ∧ globalThis_Hls st' = globalThis_Hls st.
Proof.
  intros Hsrc Hvl Hal n st'. subst st'.
  rewrite (updateTrackLists_active h st vl al Hsrc Hvl Hal).
  set (st4 := with_this _ _).
  assert (H4 : this st4 = map_createdAudioTracks (λ _, [])
                            (map_createdVideoTracks (λ _, []) (this st))
               ∧ video st4 = video st
               ∧ nextOid (heap st4) = n ∧ nextFn (heap st4) = nextFn (heap st)
               ∧ HlsConstructor st4 = HlsConstructor st
               ∧ globalThis_Hls st4 = globalThis_Hls st
               ∧ vlists (heap st4)
                 = alter (tl_map_tracks (filter (λ t, vt_oid t ∉ createdVideoTracks (this st))))
                     vl (vlists (heap st))
               ∧ alists (heap st4)
                 = alter (tl_map_tracks (filter (λ t, at_oid t ∉ createdAudioTracks (this st))))
                     al (alists (heap st))).
  { subst st4. simpl. done. }
  destruct H4 as (Hthis4 & Hvideo4 & Hn4 & Hfn4 & Hc4 & Hg4 & Hvls4 & Hals4).
  clearbody st4. unfold JS.forEach.
  destruct (forEach_add_level h vl (levels h) 0 st4)
    as (Hthis5 & Hvideo5 & Hvls5 & Hals5 & Hn5).
  { by rewrite Hthis4. }
  { rewrite Hthis4. simpl. intros o Ho. by apply elem_of_nil in Ho. }
  pose proof (forEach_from_preserve
                (λ s, (nextFn (heap s), HlsConstructor s, globalThis_Hls s))
                (add_level h) (levels h) (add_level_rest h) 0 st4) as Hrest5.
  set (st5 := JS.forEach_from (add_level h) (levels h) 0 st4) in *. clearbody st5.
  destruct (forEach_add_audio h al (audioTracks h) 0 st5)
    as (Hthis6 & Hvideo6 & Hals6 & Hvls6 & Hn6).
  { by rewrite Hthis5, Hthis4. }
  { rewrite Hthis5, Hthis4. simpl. intros o Ho. by apply elem_of_nil in Ho. }
  pose proof (forEach_from_preserve
                (λ s, (nextFn (heap s), HlsConstructor s, globalThis_Hls s))
                (add_audio h) (audioTracks h) (add_audio_rest h) 0 st5) as Hrest6.
  set (st6 := JS.forEach_from (add_audio h) (audioTracks h) 0 st5) in *. clearbody st6.
  cbv zeta in *. simpl in Hrest5, Hrest6.
  injection Hrest5 as Hfn5 Hc5 Hg5. injection Hrest6 as Hfn6 Hc6 Hg6.
  split_and!.
  - rewrite Hthis6, Hthis5, Hthis4, Hn5, Hn4. by destruct (this st).
  - by rewrite Hvideo6, Hvideo5.
  - rewrite Hvls6, Hvls5, Hvls4, Hn4, alter_alter_eq. done.
  - rewrite Hals6, Hals5, Hals4, Hn5, Hn4, alter_alter_eq. done.
  - rewrite Hn6, Hn5, Hn4. done.
  - by rewrite Hfn6, Hfn5.
  - by rewrite Hc6, Hc5.
  - by rewrite Hg6, Hg5.
Qed.

Lemma tl_ok_populate {T A} (oid_of : T → nat) (mk : nat → A → T)
    (n m k : nat) (old : list nat) (xs : list A) (L : TrackList T) :
  (∀ i x, oid_of (mk i x) = n + i) →
  n + length xs ≤ m →
  tl_ok oid_of n k L →
  tl_ok oid_of m k
    (tl_map_tracks (λ ts, filter (λ t, oid_of t ∉ old) ts ++ imap mk xs) L).
Proof.
  intros Hmk Hm (Ho & Hnd & Hf).
  assert (Hnew : oid_of <$> imap mk xs = seq n (length xs)).
  { rewrite fmap_imap.
    rewrite (imap_ext _ (λ j _, id (n + j))) by (intros; simpl; apply Hmk).
    by rewrite imap_seq, list_fmap_id. }
  split_and!; simpl; [| |done].
  - intros t [[_ Ht]%list_elem_of_filter|Ht]%elem_of_app.
    + specialize (Ho t Ht). lia.
    + assert (Hin : oid_of t ∈ seq n (length xs)).
      { rewrite <- Hnew. by apply list_elem_of_fmap_2. }
      apply elem_of_seq in Hin. lia.
  - rewrite fmap_app, Hnew. apply NoDup_app. split_and!.
    + apply (sublist_NoDup _ (oid_of <$> tl_tracks L)); [done|].
      apply fmap_sublist, sublist_filter.
    + intros o (t & -> & [_ Ht]%list_elem_of_filter)%list_elem_of_fmap
        [Hge _]%elem_of_seq.
      specialize (Ho t Ht). lia.
    + apply NoDup_seq.
Qed.

Lemma updateTrackLists_heap_wf (h : Hls) (st : State Num) :
  heap_wf st → heap_wf (updateTrackLists h st).
Proof.
  intros Hwf.
  destruct (JS.truthy (hlsSrc (this st))) eqn:Hsrc;
    [|unfold updateTrackLists; by rewrite Hsrc].
  destruct (videoTrackList (this st)) as [vl|] eqn:Hvl;
    [|unfold updateTrackLists; by rewrite Hsrc, Hvl].
  destruct (audioTrackList (this st)) as [al|] eqn:Hal;
    [|unfold updateTrackLists; by rewrite Hsrc, Hvl, Hal].
  destruct (updateTrackLists_result h st vl al Hsrc Hvl Hal)
    as (Hthis & Hvideo & Hvls & Hals & Hn & Hfn & _).
  destruct Hwf.
  split; rewrite ?Hthis, ?Hvideo, ?Hvls, ?Hals, ?Hn, ?Hfn;
    cbn [videoTrackList audioTrackList createdVideoTracks createdAudioTracks
         map_createdVideoTracks map_createdAudioTracks].
  - apply alter_ok.
    + intros l L HL. eapply tl_ok_mono; [| |by eapply wf_vlists0]; lia.
    + intros L HL. apply (tl_ok_populate vt_oid _ (nextOid (heap st))); [done|lia|].
      by eapply wf_vlists0.
  - apply alter_ok.
    + intros l L HL. eapply tl_ok_mono; [| |by eapply wf_alists0]; lia.
    + intros L HL.
      apply (tl_ok_populate at_oid _ (nextOid (heap st) + length (levels h))); [done|lia|].
      eapply tl_ok_mono; [| |by eapply wf_alists0]; lia.
  - intros l Hl. apply alter_is_Some. rewrite Hvl in Hl. apply wf_vbound0. congruence.
  - intros l Hl. apply alter_is_Some. rewrite Hal in Hl. apply wf_abound0. congruence.
  - intros l Hl. apply alter_is_Some. by apply wf_vslot0.
  - intros l Hl. apply alter_is_Some. by apply wf_aslot0.
  - intros o [_ Ho]%elem_of_seq. lia.
  - intros o [_ Ho]%elem_of_seq. lia.
  - by rewrite Hvl.
  - by rewrite Hal.
  - done.
Qed.

Lemma tl_ok_flags {T} (oid_of : T → nat) (g : T → T) (n k : nat) (L : TrackList T) :
  (∀ t, oid_of (g t) = oid_of t) →
  tl_ok oid_of n k L → tl_ok oid_of n k (tl_map_tracks (fmap g) L).
Proof.
  intros Hg (Ho & Hnd & Hf). split_and!; simpl; [| |done].
  - intros t' (t & -> & Ht)%list_elem_of_fmap. rewrite Hg. by apply Ho.
  - rewrite <- list_fmap_compose.
    by rewrite (list_fmap_ext (oid_of ∘ g) oid_of) by (intros; apply Hg).
Qed.

Lemma updateVideoTrack_heap_wf (h : Hls) (st : State Num) :
  heap_wf st → heap_wf (updateVideoTrack h st).
Proof.
  intros Hwf.
  destruct (updateVideoTrack_cases h st)
    as [->|(vl & level & VL & target & _ & _ & _ & _ & _ & _ & ->)]; [done|].
  destruct Hwf. split; simpl; try done.
  - apply alter_ok; [done|]. intros L HL. apply tl_ok_flags; [done|].
    by eapply wf_vlists0.
  - intros l Hl. apply alter_is_Some. by apply wf_vbound0.
  - intros l Hl. apply alter_is_Some. by apply wf_vslot0.
Qed.

Lemma updateAudioTrack_heap_wf (h : Hls) (st : State Num) :
  heap_wf st → heap_wf (updateAudioTrack h st).
Proof.
  intros Hwf.
  destruct (updateAudioTrack_cases h st)
    as [->|(al & current & AL & target & _ & _ & _ & _ & _ & _ & ->)]; [done|].
  destruct Hwf. split; simpl; try done.
  - apply alter_ok; [done|]. intros L HL. apply tl_ok_flags.
    + intros t. by case_decide.
    + by eapply wf_alists0.
  - intros l Hl. apply alter_is_Some. by apply wf_abound0.
  - intros l Hl. apply alter_is_Some. by apply wf_aslot0.
Qed.

Lemma engine_update_wf (st : State Num) (h h' : Hls) :
  hlsInstance (this st) = Some h → media h' = media h →
  heap_wf st → session_wf st →
  heap_wf (with_this (set_hlsInstance (Some h')) st)
  ∧ session_wf (with_this (set_hlsInstance (Some h')) st).
Proof.
  intros Hh Hm Hheap [Hsrc Hmedia Hlists]. split.
  - by apply (heap_wf_frame st).
  - split; simpl.
    + intros src Hs. destruct (Hsrc src Hs) as [? _]. by split.
    + intros ? [= <-]. rewrite Hm. by apply Hmedia.
    + intros _. apply Hlists. by rewrite Hh.
Qed.

Lemma hls_Some (st : State Num) (h : Hls) :
  hls st = Some h → hlsInstance (this st) = Some h.
Proof.
  unfold hls. destruct (hlsInstance (this st)) as [h0|]; [|done].
  by case_decide.
Qed.

Lemma onVideoTracksChange_cases (st : State Num) :
  onVideoTracksChange st = st
  ∨ ∃ h k, hls st = Some h
      ∧ onVideoTracksChange st
        = with_this (set_hlsInstance (Some (hls_command (SetCurrentLevel k) h))) st.
Proof.
  unfold onVideoTracksChange.
  destruct (hls st) as [h|]; [|by left].
  destruct (videoTrackList (this st)); [|by left].
  destruct (_ ≫= first_selected); [|by left].
  destruct (match JS.index _ _ with Some _ => _ | None => _ end); [by left|].
  destruct (0 <=? _)%Z; [|by left]. right. eauto.
Qed.

Lemma onAudioTracksChange_cases (st : State Num) :
  onAudioTracksChange st = st
  ∨ ∃ h k, hls st = Some h
      ∧ onAudioTracksChange st
        = with_this (set_hlsInstance (Some (hls_command (SetAudioTrack k) h))) st.
Proof.
  unfold onAudioTracksChange.
  destruct (hls st) as [h|]; [|by left].
  destruct (audioTrackList (this st)); [|by left].
  destruct (_ ≫= first_enabled); [|by left].
  destruct (match JS.index _ _ with Some _ => _ | None => _ end); [by left|].
  destruct (0 <=? _)%Z; [|by left]. right. eauto.
Qed.

Lemma foldl_subtitle_for_media (ts : list (TextTrack Num)) (h : Hls) :
  media (foldl (λ h t, subtitle_for t h) h ts) = media h.
Proof.
  revert h. induction ts as [|t ts IH]; intros h; simpl; [done|].
  rewrite IH. unfold subtitle_for. case_bool_decide; [|done].
  by destruct (_ && _).
Qed.

Lemma step_keeps_wf (st st' : State Num) :
  heap_wf st → session_wf st →
  step clamp isHlsSource getUrlProtocol st st' →
  heap_wf st' ∧ session_wf st'.
Proof.
  intros Hheap Hsess Hstep.
  destruct Hstep as [src st|st|value st|HlsCtor st|h h' st Hh Hm|h st|h st|h st|h st
                    |elems tracks st|cues h st|st|st|st].
  - split; [by apply setSrc_heap_wf | by apply setSrc_session_wf].
  - split; [by apply detachHls_heap_wf | apply detachHls_session_wf].
  - split; [by apply (heap_wf_frame st) | by apply (session_wf_frame st)].
  - split; [by apply (heap_wf_frame st) | by apply (session_wf_frame st)].
  - by apply (engine_update_wf st h h').
  - split; [by apply updateTrackLists_heap_wf|].
    destruct (JS.truthy (hlsSrc (this st))) eqn:Hsrc;
      [|unfold updateTrackLists; by rewrite Hsrc].
    destruct (videoTrackList (this st)) as [vl|] eqn:Hvl;
      [|unfold updateTrackLists; by rewrite Hsrc, Hvl].
    destruct (audioTrackList (this st)) as [al|] eqn:Hal;
      [|unfold updateTrackLists; by rewrite Hsrc, Hvl, Hal].
    destruct (updateTrackLists_result h st vl al Hsrc Hvl Hal)
      as (Hthis & Hvideo & _).
    apply (session_wf_frame st); rewrite ?Hthis, ?Hvideo; done.
  - split; [by apply updateVideoTrack_heap_wf|].
    destruct (updateVideoTrack_cases h st)
      as [->|(vl & level & VL & target & _ & _ & _ & _ & _ & _ & ->)]; [done|].
    by apply (session_wf_frame st).
  - split; [by apply updateAudioTrack_heap_wf|].
    destruct (updateAudioTrack_cases h st)
      as [->|(al & current & AL & target & _ & _ & _ & _ & _ & _ & ->)]; [done|].
    by apply (session_wf_frame st).
  - unfold updateTextTrack. destruct (JS.index _ _); [|done].
    split; [by apply (heap_wf_frame st) | by apply (session_wf_frame st)].
  - rewrite initNativeTextTrack_closed.
    split; [by apply (heap_wf_frame st) | by apply (session_wf_frame st)].
  - unfold addCues. case_bool_decide; [done|].
    destruct (JS.index _ _); [|done].
    destruct (list_find _ _) as [[i t]|]; [|done].
    split; [by apply (heap_wf_frame st) | by apply (session_wf_frame st)].
  - destruct (onVideoTracksChange_cases st) as [->|(h & k & Hh & ->)]; [done|].
    apply (engine_update_wf st h); [by apply hls_Some|done..].
  - destruct (onAudioTracksChange_cases st) as [->|(h & k & Hh & ->)]; [done|].
    apply (engine_update_wf st h); [by apply hls_Some|done..].
  - unfold onTextTracksChange_body.
    destruct (hlsInstance (this st)) as [h|] eqn:Hh; [|done].
    apply (engine_update_wf st h); [done|apply foldl_subtitle_for_media|done..].
Qed.

(** Every call of a public member and every event handled keeps the heap
    invariant and the session invariant, so they hold after any sequence
    of calls and events once they hold. *)
Theorem wf_preserved (st st' : State Num) :
  heap_wf st → session_wf st →
  rtc (step clamp isHlsSource getUrlProtocol) st st' →
  heap_wf st' ∧ session_wf st'.
Proof.
  intros Hheap Hsess Hreach. revert Hheap Hsess.
  induction Hreach as [s|s1 s2 s3 Hstep _ IH]; [done|].
  intros H1 H1'. destruct (step_keeps_wf s1 s2 H1 H1' Hstep). by apply IH.
Qed.

(** A new ponyfill on an element satisfies the invariants when the heap it
    is given does: what the element exposes is in the heap, and the
    counters are ahead of what the heap and the element hold. *)
Lemma wf_new (v : Video Num) (hp : Heap) (ctor global : option nat) :
  (∀ l L, vlists hp !! l = Some L → tl_ok vt_oid (nextOid hp) (nextFn hp) L) →
  (∀ l L, alists hp !! l = Some L → tl_ok at_oid (nextOid hp) (nextFn hp) L) →
  (∀ l, v_videoTracks v = JVideoTrackList l → is_Some (vlists hp !! l)) →
  (∀ l, v_audioTracks v = JAudioTrackList l → is_Some (alists hp !! l)) →
  (∀ f, f ∈ v_textTracks_change v → f < nextFn hp) →
  heap_wf (HLSPonyfill_new v hp ctor global)
  ∧ session_wf (HLSPonyfill_new v hp ctor global).
Proof.
  intros Hv Ha Hvs Has Ht. split; split; simpl; try done.
  all: intros o Ho; by apply elem_of_nil in Ho.
Qed.

(** In every state a ponyfill can reach from construction, whatever the
    order of calls and events: the falsy test and the [undefined] test of
    [hlsSrc] agree, the [hls] accessor returns the stored instance, and
    while an instance is stored both lists are bound to lists of the heap
    that hold each track object once. *)
Theorem reachable_states (v : Video Num) (hp : Heap) (ctor global : option nat)
    (st : State Num) :
  (∀ l L, vlists hp !! l = Some L → tl_ok vt_oid (nextOid hp) (nextFn hp) L) →
  (∀ l L, alists hp !! l = Some L → tl_ok at_oid (nextOid hp) (nextFn hp) L) →
  (∀ l, v_videoTracks v = JVideoTrackList l → is_Some (vlists hp !! l)) →
  (∀ l, v_audioTracks v = JAudioTrackList l → is_Some (alists hp !! l)) →
  (∀ f, f ∈ v_textTracks_change v → f < nextFn hp) →
  rtc (step clamp isHlsSource getUrlProtocol) (HLSPonyfill_new v hp ctor global) st →
  JS.truthy (hlsSrc (this st)) = bool_decide (is_Some (hlsSrc (this st)))
  ∧ hls st = hlsInstance (this st)
  ∧ (is_Some (hlsInstance (this st)) →
     ∃ vl al VL AL,
       videoTrackList (this st) = Some vl ∧ vlists (heap st) !! vl = Some VL
       ∧ audioTrackList (this st) = Some al ∧ alists (heap st) !! al = Some AL
       ∧ NoDup (vt_oid <$> tl_tracks VL) ∧ NoDup (at_oid <$> tl_tracks AL)
       ∧ (∀ t, t ∈ tl_tracks VL → vt_oid t < nextOid (heap st))
       ∧ (∀ t, t ∈ tl_tracks AL → at_oid t < nextOid (heap st)))
  ∧ (∀ o, o ∈ createdVideoTracks (this st) → o < nextOid (heap st))
  ∧ (∀ o, o ∈ createdAudioTracks (this st) → o < nextOid (heap st)).
Proof.
  intros Hv Ha Hvs Has Ht Hreach.
  assert (Hwf : heap_wf st ∧ session_wf st).
  { destruct (wf_new v hp ctor global Hv Ha Hvs Has Ht) as [H0 H0'].
    revert H0 H0'. induction Hreach as [s|s1 s2 s3 Hstep _ IH]; [done|].
    intros H1 H1'. destruct (step_keeps_wf s1 s2 H1 H1' Hstep). by apply IH. }
  destruct Hwf as [[] [Hsrc Hmedia Hlists]]. split_and!; [| | |done|done].
  - destruct (hlsSrc (this st)) as [src|]; [|done]. simpl.
    by destruct (Hsrc src eq_refl) as [-> _].
  - unfold hls. destruct (hlsInstance (this st)) as [h|]; [|done].
    by rewrite (Hmedia h eq_refl), decide_True.
  - intros Hinst. destruct (Hlists Hinst) as [[vl Hvl] [al Hal]].
    destruct (wf_vbound0 vl Hvl) as [VL HVL]. destruct (wf_abound0 al Hal) as [AL HAL].
    destruct (wf_vlists0 vl VL HVL) as (HoV & HndV & _).
    destruct (wf_alists0 al AL HAL) as (HoA & HndA & _).
    exists vl, al, VL, AL. split_and!; done.
Qed.

(** ** The life of a session *)

(** *** After detach *)

(** After [detach] nothing the engine or the page still delivers does
    anything: the handlers of the engine's events and the change listeners
    of the two track lists return at their guard, the listener on
    [video.textTracks] of the session that ended is no longer subscribed,
    the [hls] getter reads [undefined], and a seek is not clamped. *)
Theorem late_events_after_detach (h : Hls) (value : Num) (st : State Num) :
  let st' := detach st in
  updateTrackLists h st' = st'
  ∧ updateVideoTrack h st' = st'
  ∧ updateAudioTrack h st' = st'
  ∧ onVideoTracksChange st' = st'
  ∧ onAudioTracksChange st' = st'
  ∧ (∀ fn, is_Some (hlsInstance (this st)) → onTextTracksChange (this st) = Some fn →
       fn ∉ v_textTracks_change (video st'))
  ∧ set_currentTime clamp value st' = with_video (set_v_currentTime value) st'
  ∧ hls st' = None.
Proof.
  cbv zeta. unfold detach.
  assert (Hsrc : hlsSrc (this (detachHls st)) = None) by by rewrite detachHls_this.
  assert (Hinst : hlsInstance (this (detachHls st)) = None) by by rewrite detachHls_this.
  assert (Hhls : hls (detachHls st) = None) by (unfold hls; by rewrite Hinst).
  split_and!.
  - unfold updateTrackLists. by rewrite Hsrc.
  - unfold updateVideoTrack. by rewrite Hsrc.
  - unfold updateAudioTrack. by rewrite Hsrc.
  - unfold onVideoTracksChange. by rewrite Hhls.
  - unfold onAudioTracksChange. by rewrite Hhls.
  - intros fn [h0 Hh0] Hfn. rewrite detachHls_video. cbn [v_textTracks_change].
    rewrite Hh0, Hfn. unfold JS.removeEventListener.
    by intros [? _]%list_elem_of_filter.
  - unfold set_currentTime. by rewrite Hsrc.
  - done.
Qed.

(** *** Reading the source back *)

(** [getSrc] after [setSrc]: the empty string after an empty source; the
    URL as given after an HLS source that attached; the element's resolved
    [src] after any other source; and after an HLS source that failed for
    want of a constructor, whatever the element's [src] reads, since no HLS
    source is recorded any more. *)
Theorem getSrc_after_setSrc (src : string) (st : State Num) :
  getSrc resolveURL (fst (setSrc isHlsSource getUrlProtocol src st))
  = if negb (JS.truthy_str src) then EmptyString
    else if isHlsSource src then
      match snd (setSrc isHlsSource getUrlProtocol src st) with
      | Return _ => src
      | Thrown _ =>
          video_src resolveURL (video (fst (setSrc isHlsSource getUrlProtocol src st)))
      end
    else resolveURL src.
Proof.
  unfold setSrc. destruct (JS.truthy_str src); cbn [negb].
  - destruct (isHlsSource src).
    + pose proof (initHls_unfold src st) as Hinit. cbv zeta in Hinit.
      destruct (Hls_getter st).
      * destruct Hinit as (h & _ & ->). done.
      * rewrite Hinit. cbn [fst snd]. unfold getSrc.
        destruct (initAudioTrackList_this (initVideoTrackList (detachHls st)))
          as (_ & _ & -> & _).
        destruct (initVideoTrackList_this (detachHls st)) as (_ & _ & -> & _).
        by rewrite detachHls_this.
    + by destruct (_ && _).
  - cbn [fst]. unfold getSrc. cbn [this with_video].
    by rewrite detachHls_this.
Qed.

(** *** Attaching and detaching *)

Lemma initVideoTrackList_reuse (st : State Num) (l : nat) :
  v_videoTracks (video st) = JVideoTrackList l →
  initVideoTrackList st
  = on_vlist l (tl_map_change (JS.addEventListener (nextFn (heap st))))
      (with_this (set_onVideoTracksChangeBound (Some (nextFn (heap st))))
         (with_heap bump_nextFn (with_this (set_videoTrackList (Some l)) st))).
Proof. intros Hl. unfold initVideoTrackList. by rewrite Hl. Qed.

Lemma initAudioTrackList_reuse (st : State Num) (l : nat) :
  v_audioTracks (video st) = JAudioTrackList l →
  initAudioTrackList st
  = on_alist l (tl_map_change (JS.addEventListener (nextFn (heap st))))
      (with_this (set_onAudioTracksChangeBound (Some (nextFn (heap st))))
         (with_heap bump_nextFn (with_this (set_audioTrackList (Some l)) st))).
Proof. intros Hl. unfold initAudioTrackList. by rewrite Hl. Qed.

Lemma alter_listen_undo {T} (oid_of : T → nat) (n k fn l : nat)
    (m : gmap nat (TrackList T)) :
  (∀ i L, m !! i = Some L → tl_ok oid_of n k L) →
  k ≤ fn →
  alter (λ L, {| tl_tracks := filter (λ t, oid_of t ∉ @nil nat) (tl_tracks L);
                 tl_change := JS.removeEventListener fn (tl_change L) |})
    l (alter (tl_map_change (JS.addEventListener fn)) l m)
  = m.
Proof.
  intros Hok Hfn. rewrite alter_alter_eq. apply alter_id.
  intros [ts ls] HL. destruct (Hok l _ HL) as (_ & _ & Hls). simpl in *. f_equal.
  - apply filter_all. intros t _. apply not_elem_of_nil.
  - apply removeEventListener_added. intros Hin%Hls. lia.
Qed.

(** A source set on an element that has its two track lists, and then
    detached, leaves the element and every track list as a plain [detach]
    would have: no listener and no track stays behind, whether the engine
    was attached or its constructor was missing. *)
Theorem attach_detach_round_trip (src : string) (st : State Num) (vl al : nat) :
  heap_wf st →
  v_videoTracks (video st) = JVideoTrackList vl →
  v_audioTracks (video st) = JAudioTrackList al →
  JS.truthy_str src = true → isHlsSource src = true →
  let d := detach (fst (setSrc isHlsSource getUrlProtocol src st)) in
  video d = video (detach st)
  ∧ vlists (heap d) = vlists (heap (detach st))
  ∧ alists (heap d) = alists (heap (detach st))
  ∧ nextOid (heap d) = nextOid (heap (detach st)).
Proof.
  intros Hwf Hv Ha Htruthy Hhls. cbv zeta. unfold setSrc, detach.
  rewrite Htruthy, Hhls. cbn [negb].
  pose proof (initHls_unfold src st) as Hinit. cbv zeta in Hinit.
  pose proof (detachHls_heap_wf st Hwf) as Hwf0.
  assert (Hv0 : v_videoTracks (video (detachHls st)) = JVideoTrackList vl)
    by by rewrite detachHls_video.
  assert (Ha0 : v_audioTracks (video (detachHls st)) = JAudioTrackList al)
    by by rewrite detachHls_video.
  assert (Htt : filter (λ t, tt_ponyfill t = false)
                  (v_textTracks (video (detachHls st)))
                = v_textTracks (video (detachHls st))).
  { rewrite detachHls_video. cbn [v_textTracks]. apply filter_twice. }
  assert (Hnone : hlsInstance (this (detachHls st)) = None)
    by by rewrite detachHls_this.
  assert (Hcv : createdVideoTracks (this (detachHls st)) = []).
  { rewrite detachHls_this. cbn [createdVideoTracks].
    destruct (videoTrackList (this st)) eqn:E; [done|]. by apply wf_vunbound. }
  assert (Hca : createdAudioTracks (this (detachHls st)) = []).
  { rewrite detachHls_this. cbn [createdAudioTracks].
    destruct (audioTrackList (this st)) eqn:E; [done|]. by apply wf_aunbound. }
  rewrite (initVideoTrackList_reuse _ vl Hv0) in Hinit.
  rewrite (initAudioTrackList_reuse _ al) in Hinit by done.
  set (d0 := detachHls st) in *. clearbody d0.
  destruct Hwf0 as [Hvl0 Hal0 _ _ _ _ _ _ _ _ Htf0].
  destruct d0 as [t0 v0 h0 c0 g0]. cbn [this video heap] in *.
  destruct t0, v0, h0 as [vls als no nf].
  cbn in Hv0, Ha0, Htt, Hnone, Hcv, Hca, Hvl0, Hal0, Htf0.
  subst.
  assert (Hal1 : ∀ l L, als !! l = Some L → tl_ok at_oid no (S nf) L).
  { intros l L HL. eapply tl_ok_mono; [| |by eapply Hal0]; lia. }
  destruct (Hls_getter _).
  - destruct Hinit as (h & _ & ->). cbn [fst].
    rewrite detachHls_video, detachHls_heap. cbn. rewrite Htt. split_and!.
    + f_equal. apply (removeEventListener_added (S (S nf))).
      intros Hin%Htf0. lia.
    + by apply (alter_listen_undo vt_oid no nf).
    + by apply (alter_listen_undo at_oid no (S nf)).
    + done.
  - rewrite Hinit. cbn [fst].
    rewrite detachHls_video, detachHls_heap. cbn. rewrite Htt. split_and!.
    + done.
    + by apply (alter_listen_undo vt_oid no nf).
    + by apply (alter_listen_undo at_oid no (S nf)).
    + done.
Qed.

(** *** Manifests *)

Lemma filter_app_stale {T} (key : T → nat) (n k : nat) (old new : list T) :
  (∀ t, t ∈ old → key t < n) →
  (∀ t, t ∈ new → key t ∈ seq n k) →
  filter (λ t, key t ∉ seq n k) (old ++ new) = old.
Proof.
  intros Hold Hnew. rewrite filter_app, filter_all, (filter_none _ new).
  - apply app_nil_r.
  - intros t Ht Hnot. by apply Hnot, Hnew.
  - intros t Ht [Hge _]%elem_of_seq. specialize (Hold t Ht). lia.
Qed.

(** What MANIFEST_LOADED puts into the track lists, [detach] takes out
    again: after the event and a detach, the element and every track list
    are as a detach without the event would have left them. *)
Theorem manifest_then_detach (h : Hls) (st : State Num) :
  heap_wf st →
  let d := detach (updateTrackLists h st) in
  video d = video (detach st)
  ∧ vlists (heap d) = vlists (heap (detach st))
  ∧ alists (heap d) = alists (heap (detach st)).
Proof.
  intros Hwf. cbv zeta. unfold detach.
  destruct (JS.truthy (hlsSrc (this st))) eqn:Hsrc;
    [|unfold updateTrackLists; by rewrite Hsrc].
  destruct (videoTrackList (this st)) as [vl|] eqn:Hvl;
    [|unfold updateTrackLists; by rewrite Hsrc, Hvl].
  destruct (audioTrackList (this st)) as [al|] eqn:Hal;
    [|unfold updateTrackLists; by rewrite Hsrc, Hvl, Hal].
  destruct (updateTrackLists_result h st vl al Hsrc Hvl Hal)
    as (Hthis & Hvideo & Hvls & Hals & _).
  destruct Hwf as [Hvok Haok _ _ _ _ _ _ _ _ _].
  rewrite !detachHls_video, !detachHls_heap, Hthis, Hvideo, Hvls, Hals.
  cbn [vlists alists hlsInstance onTextTracksChange videoTrackList audioTrackList
       createdVideoTracks createdAudioTracks onVideoTracksChangeBound
       onAudioTracksChangeBound map_createdVideoTracks map_createdAudioTracks].
  rewrite Hvl, Hal. split; [done|]. split.
  - rewrite alter_alter_eq. apply alter_ext. intros L HL.
    destruct (Hvok _ _ HL) as (Ho & _ & _).
    unfold tl_map_tracks, compose. cbn [tl_tracks tl_change]. f_equal.
    apply (filter_app_stale vt_oid).
    + intros t [_ Ht]%list_elem_of_filter. by apply Ho.
    + apply new_video_tracks_in.
  - rewrite alter_alter_eq. apply alter_ext. intros L HL.
    destruct (Haok _ _ HL) as (Ho & _ & _).
    unfold tl_map_tracks, compose. cbn [tl_tracks tl_change]. f_equal.
    apply (filter_app_stale at_oid).
    + intros t [_ Ht]%list_elem_of_filter.
      specialize (Ho t Ht). lia.
    + apply new_audio_tracks_in.
Qed.

(** However many manifests were loaded during a session, the track lists
    do not grow with them: after MANIFEST_LOADED each list holds the
    entries that are not this instance's, as they were when the first
    manifest came, followed by one new entry per level (audio rendition)
    of the latest manifest, in the engine's order. *)
Theorem manifests_do_not_accumulate (hs : list Hls) (h : Hls) (st : State Num)
    (vl al : nat) (VL : TrackList VideoTrack) (AL : TrackList AudioTrack) :
  heap_wf st →
  JS.truthy (hlsSrc (this st)) = true →
  videoTrackList (this st) = Some vl → audioTrackList (this st) = Some al →
  vlists (heap st) !! vl = Some VL → alists (heap st) !! al = Some AL →
  let s := foldl (λ s h, updateTrackLists h s) st hs in
  let s' := updateTrackLists h s in
  ∃ VL' AL',
    vlists (heap s') !! vl = Some VL' ∧ alists (heap s') !! al = Some AL'
    ∧ tl_tracks VL'
      = filter (λ t, vt_oid t ∉ createdVideoTracks (this st)) (tl_tracks VL)
        ++ imap (λ i lv, new_VideoTrack (nextOid (heap s) + i) h lv i) (levels h)
    ∧ tl_tracks AL'
      = filter (λ t, at_oid t ∉ createdAudioTracks (this st)) (tl_tracks AL)
        ++ imap (λ i t, new_AudioTrack (nextOid (heap s) + length (levels h) + i) h t i)
             (audioTracks h)
    ∧ tl_change VL' = tl_change VL ∧ tl_change AL' = tl_change AL.
Proof.
  cbv zeta. revert st VL AL.
  induction hs as [|h0 hs IH]; intros st VL AL Hwf Hsrc Hvl Hal HVL HAL.
  - cbn [foldl].
    destruct (updateTrackLists_result h st vl al Hsrc Hvl Hal)
      as (_ & _ & Hvls & Hals & _).
    rewrite Hvls, Hals, !lookup_alter_eq, HVL, HAL.
    eexists _, _. split_and!; reflexivity.
  - cbn [foldl].
    destruct (updateTrackLists_result h0 st vl al Hsrc Hvl Hal)
      as (Hthis & _ & Hvls & Hals & _).
    pose proof (updateTrackLists_heap_wf h0 st Hwf) as Hwf1.
    destruct Hwf as [Hvok Haok _ _ _ _ _ _ _ _ _].
    destruct (Hvok _ _ HVL) as (HoV & _ & _).
    destruct (Haok _ _ HAL) as (HoA & _ & _).
    edestruct (IH (updateTrackLists h0 st)) as (VL' & AL' & H1 & H2 & H3 & H4 & H5 & H6).
    + done.
    + by rewrite Hthis.
    + by rewrite Hthis.
    + by rewrite Hthis.
    + by rewrite Hvls, lookup_alter_eq, HVL.
    + by rewrite Hals, lookup_alter_eq, HAL.
    + exists VL', AL'. split; [done|]. split; [done|].
      rewrite H3, H4, H5, H6, Hthis.
      cbn [createdVideoTracks createdAudioTracks map_createdVideoTracks
           map_createdAudioTracks tl_map_tracks tl_tracks tl_change].
      split_and!; [|  |done|done].
      * f_equal. apply (filter_app_stale vt_oid).
        -- intros t [_ Ht]%list_elem_of_filter. by apply HoV.
        -- apply new_video_tracks_in.
      * f_equal. apply (filter_app_stale at_oid).
        -- intros t [_ Ht]%list_elem_of_filter. specialize (HoA t Ht). lia.
        -- apply new_audio_tracks_in.
Qed.

End Facts.

(** ** The properties on the sample session *)

Import Sample.

(** The manifest of the sample engine gives two video entries and two audio
    entries after the foreign one; level 1 and audio track 0 are marked. *)
Lemma C1_manifest_loaded_witness :
  JS.truthy (hlsSrc (this session)) = true
  ∧ ∃ VL' AL',
      vlists (heap (updateTrackLists engine session)) !! 0 = Some VL'
      ∧ alists (heap (updateTrackLists engine session)) !! 0 = Some AL'
      ∧ tl_tracks VL' = [dash_video; v480 false; v720 true]
      ∧ tl_tracks AL' = [a_en true; a_de false]
      ∧ own_video_tracks (updateTrackLists engine session) VL' = [v480 false; v720 true].
Proof.
  split; [reflexivity|].
  destruct (C1_manifest_loaded engine session 0 0 VL0 AL0)
    as (VL' & AL' & HVL & HAL & HownV & HownA & _ & _ & _ & _ & _ & _ & _ & _ & _ & _ & HtV & HtA).
  - reflexivity.
  - reflexivity.
  - reflexivity.
  - reflexivity.
  - reflexivity.
  - intros t Ht. apply list_elem_of_singleton in Ht as ->. simpl. lia.
  - intros t Ht. by apply elem_of_nil in Ht.
  - intros o Ho. by apply elem_of_nil in Ho.
  - intros o Ho. by apply elem_of_nil in Ho.
  - exists VL', AL'. rewrite HtV, HtA, HownV, HownA. split_and!; done.
Defined.

(** C1 as stated fails on a manifest whose two levels share their first
    URL: both entries are inserted and carry the same identifier. *)
Lemma C1_duplicate_identifiers_counterexample :
  JS.truthy (hlsSrc (this session)) = true
  ∧ videoTrackList (this session) = Some 0
  ∧ audioTrackList (this session) = Some 0
  ∧ ∃ VL', vlists (heap (updateTrackLists engine_twins session)) !! 0 = Some VL'
      ∧ vt_id <$> own_video_tracks (updateTrackLists engine_twins session) VL'
        = [Some "480.m3u8"; Some "480.m3u8"]
      ∧ ¬ NoDup (vt_id <$> tl_tracks VL').
Proof.
  split_and!; [reflexivity..|].
  eexists. split; [reflexivity|]. split; [reflexivity|].
  by apply (bool_decide_unpack _).
Qed.



(** The user selects the 480p entry while the engine plays level 1: one
    command, to level 0; the enabled audio entry is the active one: none. *)
Lemma C3_user_selection_change_witness :
  hls (populated engine true false true false) = Some engine
  ∧ onVideoTracksChange (populated engine true false true false)
    = with_this (set_hlsInstance (Some (hls_command (SetCurrentLevel 0) engine)))
        (populated engine true false true false)
  ∧ onAudioTracksChange (populated engine true false true false)
    = populated engine true false true false.
Proof.
  split; [reflexivity|].
  destruct (C3_user_selection_change (populated engine true false true false) engine
              0 0 (VL1 true false) (AL1 true false)) as [HV HA]; try reflexivity.
  cbn in HV, HA. destruct HV as (_ & _ & HV). destruct HA as (HA & _).
  split.
  - apply (HV 0%nat).
    + intros (lv & Hlv & Hid). injection Hlv as <-. discriminate Hid.
    + split; [by exists level480|]. intros j y Hj. lia.
  - apply HA. by exists audio_en.
Defined.

(** A switch to the English subtitles leaves the hidden placeholder hidden
    and disables the chapters track. *)
Lemma C4_updateTextTrack_modes_witness :
  JS.index (subtitleTracks engine) (subtitleTrack engine) = Some subs_en
  ∧ v_textTracks (video (updateTextTrack engine session))
    = [placeholder hidden; tt_set_mode disabled chapters]
  ∧ length (filter (λ t, tt_mode t ≠ disabled)
              (v_textTracks (video (updateTextTrack engine session)))) = 1.
Proof.
  split; [reflexivity|].
  destruct (C4_updateTextTrack_modes engine session subs_en eq_refl) as (Hafter & _ & Hcount).
  split; [by rewrite Hafter | by rewrite Hcount].
Defined.

(** C4 as stated fails: the placeholder corresponds to the active
    rendition and is not in showing mode after the handler. *)
Lemma C4_hidden_counterexample :
  JS.index (subtitleTracks engine) (subtitleTrack engine) = Some subs_en
  ∧ ∃ t, v_textTracks (video (updateTextTrack engine session)) !! 0 = Some t
      ∧ isCorrespondingTrack t subs_en = true
      ∧ tt_mode t ≠ showing.
Proof.
  split; [reflexivity|]. exists (placeholder hidden). split_and!; done.
Qed.

(** C5 as stated fails for [detach]: with no session and a progressive
    source, the element still has its [src] attribute afterwards. *)
Lemma C5_detach_counterexample :
  hlsInstance (this progressive) = None
  ∧ hlsSrc (this progressive) = None
  ∧ v_src (video (detach progressive)) = Some "movie.mp4"
  ∧ v_src (video (detach progressive)) ≠ None.
Proof. split_and!; done. Qed.

(** Without a session [detach] leaves the progressive source in place. *)
Lemma C5_teardown_idempotent_witness :
  hlsInstance (this progressive) = None
  ∧ v_src (video (detach progressive)) = Some "movie.mp4"
  ∧ detach (detach progressive) = detach progressive.
Proof.
  split; [reflexivity|].
  destruct (C5_teardown_idempotent (λ _, false) (λ s, s) progressive)
    as (_ & (Hidem & _) & Hsrc).
  split; [by rewrite (Hsrc eq_refl) | exact Hidem].
Defined.

(** Detaching the populated session leaves the foreign video entry and
    nothing else. *)
Lemma C6_detach_witness :
  videoTrackList (this (populated engine false true true false)) = Some 0
  ∧ createdVideoTracks (this (detach (populated engine false true true false))) = []
  ∧ (∃ VL', vlists (heap (detach (populated engine false true true false))) !! 0 = Some VL'
       ∧ tl_tracks VL' = [dash_video])
  ∧ (∃ AL', alists (heap (detach (populated engine false true true false))) !! 0 = Some AL'
       ∧ tl_tracks AL' = []).
Proof.
  split; [reflexivity|].
  destruct (C6_detach_removes_only_created (populated engine false true true false)
              0 0 (VL1 false true) (AL1 true false) eq_refl eq_refl eq_refl eq_refl)
    as (HcV & _ & (VL' & HVL' & HtV & _) & (AL' & HAL' & HtA & _) & _).
  split; [done|]. split; [exists VL' | exists AL']; split; try done.
Defined.

(** The scenario of the specification: "Hi" parsed twice, then "Bye". *)
Lemma C7_addCues_witness :
  JS.index (subtitleTracks engine) (subtitleTrack engine) = Some subs_en
  ∧ (∃ added,
       addCues [cue_hi; cue_hi; cue_bye] engine session
       = with_video
           (map_v_textTracks
              (λ ts, <[0%nat := tt_set_cues added (placeholder hidden)]> ts))
           session
       ∧ sublist added [cue_hi; cue_hi; cue_bye])
  ∧ tt_cues <$> v_textTracks (video (addCues [cue_hi; cue_hi; cue_bye] engine session))
    = [[cue_hi; cue_bye]; []].
Proof.
  split; [reflexivity|].
  destruct (C7_addCues [cue_hi; cue_hi; cue_bye] engine session) as [_ Hsome].
  specialize (Hsome subs_en eq_refl). cbn in Hsome.
  destruct Hsome as (added & Heq & Hsub & _).
  split; [|reflexivity]. exists added. split; [|done]. by rewrite Heq.
Defined.


(** Seeking to 99 during the session lands on the end of the seekable
    range; without a session the value is stored as given. *)
Lemma C10_set_currentTime_witness :
  hlsSrc (this session) = Some "https://host/master.m3u8"
  ∧ v_seekable (video session) = [(10, 50)%Z]
  ∧ v_currentTime (video (set_currentTime clampZ 99%Z session)) = 50%Z
  ∧ hlsSrc (this fresh_state) = None
  ∧ v_currentTime (video (set_currentTime clampZ 99%Z fresh_state)) = 99%Z.
Proof.
  split; [reflexivity|]. split; [reflexivity|].
  destruct (C10_set_currentTime clampZ 99%Z session) as [Hclamp _].
  destruct (C10_set_currentTime clampZ 99%Z fresh_state) as [_ Hraw].
  rewrite (Hclamp _ _ _ _ eq_refl eq_refl), (Hraw (or_introl eq_refl)).
  split_and!; reflexivity.
Defined.

(** ** The scenarios of the specification, run on the model *)

(** [setSrc] of a playlist URL on a bare element with a constructor
    registered: the lists are created and published, the source is
    recorded, and the engine is told to load and attach. *)
Example scenario_attach :
  let st := fst (setSrc (λ _, true) (λ s, s) "https://host/master.m3u8"
                   (Hls_setter 1 fresh_state)) in
  hlsSrc (this st) = Some "https://host/master.m3u8"
  ∧ videoTrackList (this st) = Some 0 ∧ audioTrackList (this st) = Some 0
  ∧ v_videoTracks (video st) = JVideoTrackList 0
  ∧ v_audioTracks (video st) = JAudioTrackList 0
  ∧ (media <$> hls st) = Some (Some 7)
  ∧ (last ∘ commands <$> hls st) = Some (Some (AttachMedia 7)).
Proof. vm_compute. split_and!; reflexivity. Qed.

(** Without a constructor the same call throws, and no instance is kept. *)
Example scenario_no_constructor :
  snd (setSrc (λ _, true) (λ s, s) "https://host/master.m3u8" fresh_state)
  = Thrown no_ctor_message
  ∧ hlsInstance (this (fst (setSrc (λ _, true) (λ s, s) "https://host/master.m3u8"
                              fresh_state))) = None.
Proof. vm_compute. split; reflexivity. Qed.

(** Switching from the playlist to a progressive file: the instance is
    gone, the inserted entries are removed, the source is the file. *)
Example scenario_switch_to_mp4 :
  let st := fst (setSrc (λ _, false) (λ _, "https:") "movie.mp4"
                   (populated engine false true true false)) in
  hlsInstance (this st) = None
  ∧ v_src (video st) = Some "movie.mp4"
  ∧ (tl_tracks <$> vlists (heap st) !! 0) = Some [dash_video]
  ∧ (tl_tracks <$> alists (heap st) !! 0) = Some [].
Proof. vm_compute. split_and!; reflexivity. Qed.

(** ** The further properties on the sample session *)

Lemma session_heap_wf : heap_wf session.
Proof.
  split; cbn.
  - intros l L [<- <-]%lookup_singleton_Some. split_and!; cbn.
    + intros t ->%list_elem_of_singleton. cbn. lia.
    + by apply (bool_decide_unpack _).
    + intros f ->%list_elem_of_singleton. lia.
  - intros l L [<- <-]%lookup_singleton_Some. split_and!; cbn.
    + intros t Ht. by apply elem_of_nil in Ht.
    + by apply (bool_decide_unpack _).
    + intros f ->%list_elem_of_singleton. lia.
  - intros l [= <-]. by eexists.
  - intros l [= <-]. by eexists.
  - intros l [= <-]. by eexists.
  - intros l [= <-]. by eexists.
  - intros o Ho. by apply elem_of_nil in Ho.
  - intros o Ho. by apply elem_of_nil in Ho.
  - done.
  - done.
  - intros f ->%list_elem_of_singleton. lia.
Qed.

Lemma session_session_wf : session_wf session.
Proof.
  split; cbn.
  - intros src [= <-]. split; [reflexivity|by eexists].
  - by intros h [= <-].
  - intros _. split; by eexists.
Qed.


(** The placeholder of the active English subtitles is hidden and the
    chapters track corresponds to no rendition: the listener sends the
    engine nothing. *)
Lemma onTextTracksChange_commands_witness :
  hlsInstance (this session) = Some engine
  ∧ onTextTracksChange_body session = session.
Proof.
  split; [reflexivity|].
  destruct (onTextTracksChange_commands session engine eq_refl) as [_ Hquiet].
  apply Hquiet. cbn. repeat apply Forall_cons_2; [| |apply Forall_nil_2].
  - right. right. exists 0. split; [|reflexivity].
    split; [by exists subs_en|]. intros j y Hj. lia.
  - right. left. intros mp ->%list_elem_of_singleton. reflexivity.
Defined.

(** After the switch to the English subtitles has been applied to the text
    tracks of the sample session, the listener sends the engine nothing. *)
Lemma no_feedback_after_subtitle_switch_witness :
  JS.index (subtitleTracks engine) (subtitleTrack engine) = Some subs_en
  ∧ onTextTracksChange_body (updateTextTrack engine session)
    = updateTextTrack engine session.
Proof.
  split; [reflexivity|].
  apply (no_feedback_after_subtitle_switch engine session subs_en);
    [reflexivity|reflexivity|].
  intros t j mp _ _ Hj. cbn in Hj. lia.
Defined.

(** The English subtitles found while the element has one [<track>] child,
    the chapters: the placeholder goes after it. *)
Lemma placeholders_found_witness :
  1 ≤ length (v_textTracks (video one_child))
  ∧ v_textTracks (video (initNativeTextTrack 1 [found_en] one_child)) !! 1
    = Some (placeholder_of found_en).
Proof.
  split; [cbn; lia|].
  destruct (placeholders_found 1 [found_en] one_child) as (_ & _ & Hat).
  apply (Hat (le_n 1) 0 found_en eq_refl).
Defined.

(** The placeholder of the English subtitles corresponds to the English
    rendition. *)
Lemma placeholder_corresponds_witness :
  nn_subtitleTrack found_en = Some subs_en
  ∧ isCorrespondingTrack (placeholder_of found_en : TextTrack Z) subs_en = true
  ∧ tt_mode (placeholder_of found_en : TextTrack Z) ≠ disabled
  ∧ switch_mode subs_en (placeholder_of found_en : TextTrack Z) = placeholder_of found_en.
Proof.
  split; [reflexivity|].
  apply (placeholder_corresponds found_en subs_en); reflexivity.
Defined.

Lemma registered_wf : heap_wf registered ∧ session_wf registered.
Proof.
  apply (wf_new (element [] None) empty_heap (Some 1) None); cbn.
  - intros l L Hl. by rewrite lookup_empty in Hl.
  - intros l L Hl. by rewrite lookup_empty in Hl.
  - done.
  - done.
  - intros f Hf. by apply elem_of_nil in Hf.
Qed.

(** The invariants hold after a source was set, a manifest came and the
    ponyfill was detached. *)
Lemma wf_preserved_witness :
  heap_wf (detach (updateTrackLists engine
             (fst (setSrc always_hls no_protocol "https://host/master.m3u8" registered))))
  ∧ session_wf (detach (updateTrackLists engine
             (fst (setSrc always_hls no_protocol "https://host/master.m3u8" registered)))).
Proof.
  apply (wf_preserved clampZ always_hls no_protocol registered).
  - apply registered_wf.
  - apply registered_wf.
  - eapply rtc_l; [apply (step_setSrc _ _ _ "https://host/master.m3u8")|].
    eapply rtc_l; [apply (step_MANIFEST_LOADED _ _ _ engine)|].
    apply rtc_once, step_detach.
Defined.

(** After a source was set on a new ponyfill and its manifest came, the
    [hls] accessor returns the stored instance and both lists are bound. *)
Lemma reachable_states_witness :
  hls (updateTrackLists engine
         (fst (setSrc always_hls no_protocol "https://host/master.m3u8" registered)))
  = hlsInstance (this (updateTrackLists engine
         (fst (setSrc always_hls no_protocol "https://host/master.m3u8" registered))))
  ∧ is_Some (videoTrackList (this (updateTrackLists engine
         (fst (setSrc always_hls no_protocol "https://host/master.m3u8" registered)))))
  ∧ is_Some (audioTrackList (this (updateTrackLists engine
         (fst (setSrc always_hls no_protocol "https://host/master.m3u8" registered))))).
Proof.
  destruct (reachable_states clampZ always_hls no_protocol
              (element [] None) empty_heap (Some 1) None
              (updateTrackLists engine
                 (fst (setSrc always_hls no_protocol "https://host/master.m3u8" registered))))
    as (_ & Hhls & Hlists & _).
  - intros l L Hl. unfold empty_heap in Hl. cbn [vlists] in Hl.
    by rewrite lookup_empty in Hl.
  - intros l L Hl. unfold empty_heap in Hl. cbn [alists] in Hl.
    by rewrite lookup_empty in Hl.
  - done.
  - done.
  - intros f Hf. by apply elem_of_nil in Hf.
  - eapply rtc_l; [apply (step_setSrc _ _ _ "https://host/master.m3u8")|].
    apply rtc_once, step_MANIFEST_LOADED.
  - split; [exact Hhls|].
    destruct Hlists as (vl & al & VL & AL & Hvl & _ & Hal & _).
    + vm_compute. by eexists.
    + rewrite Hvl, Hal. split; by eexists.
Defined.

(** A source set on the sample session and detached again leaves the
    element and the lists as a plain detach. *)
Lemma attach_detach_round_trip_witness :
  video (detach (fst (setSrc always_hls no_protocol "https://host/other.m3u8" session)))
  = video (detach session)
  ∧ vlists (heap (detach (fst (setSrc always_hls no_protocol "https://host/other.m3u8" session))))
    = vlists (heap (detach session))
  ∧ alists (heap (detach (fst (setSrc always_hls no_protocol "https://host/other.m3u8" session))))
    = alists (heap (detach session))
  ∧ nextOid (heap (detach (fst (setSrc always_hls no_protocol "https://host/other.m3u8" session))))
    = nextOid (heap (detach session)).
Proof.
  apply (attach_detach_round_trip always_hls no_protocol "https://host/other.m3u8" session 0 0).
  - apply session_heap_wf.
  - reflexivity.
  - reflexivity.
  - reflexivity.
  - reflexivity.
Defined.

(** The manifest of the sample engine, then a detach: the lists are as a
    detach alone leaves them, with the foreign entry only. *)
Lemma manifest_then_detach_witness :
  video (detach (updateTrackLists engine session)) = video (detach session)
  ∧ vlists (heap (detach (updateTrackLists engine session)))
    = vlists (heap (detach session))
  ∧ alists (heap (detach (updateTrackLists engine session)))
    = alists (heap (detach session)).
Proof.
  apply (manifest_then_detach engine session). apply session_heap_wf.
Defined.

(** The manifest with twin levels, then the sample manifest: the video list
    holds the foreign entry and the two entries of the sample manifest. *)
Lemma manifests_do_not_accumulate_witness :
  ∃ VL' AL',
    vlists (heap (updateTrackLists engine (updateTrackLists engine_twins session))) !! 0
    = Some VL'
    ∧ alists (heap (updateTrackLists engine (updateTrackLists engine_twins session))) !! 0
      = Some AL'
    ∧ vt_id <$> tl_tracks VL' = [Some "dash-1080"; Some "480.m3u8"; Some "720.m3u8"]
    ∧ at_id <$> tl_tracks AL' = ["audio-en.m3u8"; "audio-de.m3u8"].
Proof.
  destruct (manifests_do_not_accumulate [engine_twins] engine session 0 0 VL0 AL0)
    as (VL' & AL' & HVL & HAL & HtV & HtA & _ & _).
  - apply session_heap_wf.
  - reflexivity.
  - reflexivity.
  - reflexivity.
  - reflexivity.
  - reflexivity.
  - exists VL', AL'. rewrite HtV, HtA. split_and!; [exact HVL|exact HAL|reflexivity|reflexivity].
Defined.

(** After the sample session is detached, its listener on the text tracks
    is gone and a late MANIFEST_LOADED changes nothing. *)
Lemma late_events_after_detach_witness :
  is_Some (hlsInstance (this session))
  ∧ onTextTracksChange (this session) = Some 2
  ∧ (2 ∉ v_textTracks_change (video (detach session)))
  ∧ updateTrackLists engine (detach session) = detach session.
Proof.
  destruct (late_events_after_detach clampZ engine 0%Z session)
    as (Hmanifest & _ & _ & _ & _ & Hlistener & _).
  split_and!; [by eexists|reflexivity| |exact Hmanifest].
  apply Hlistener; [by eexists|reflexivity].
Defined.
